(** * Runtime structural validation with composable guards

    A shallow embedding of [cache.ts] (memoizing resolution of guard
    sources) and [index.ts] (guards, combinators, assertions).

    - Validated data is a tree ([value]); a guard reads it and never writes.
    - A guard function is a Rocq function from a value to a [check]: the
      diagnostic it reports, possibly after applying other guards it has
      captured by reference.
    - Guard construction is a [prog]: the code of a factory, which may create
      guard functions, resolve other sources and apply guards.
    - The resolver's [WeakMap] is a finite map from factory identities to
      guard identities, threaded through [interp] together with the store of
      function objects and a ghost [trace] of what happened.
    - The validating cast works on object references in a store of objects
      with property attributes and prototypes.

    What the model covers: numbers that are integers; names and keys made
    of ASCII characters; objects with data properties (no accessors, no
    proxies); guards written by the caller that only inspect the value and
    apply other guards.  A JavaScript object is given by its own enumerable
    string keys in the order [Object.entries] and [for...in] list them. *)

From Stdlib Require Import ZArith Lia Ascii.
From stdpp Require Import base option list gmap strings pretty.

Set Warnings "-register-all".

Local Open Scope Z_scope.
Local Open Scope nat_scope.
Local Open Scope string_scope.
Local Open Scope list_scope.
Local Open Scope stdpp_scope.

(** ** Values *)

(** The values a guard may be handed.  Numbers are the integer-valued ones;
    a function is known to a guard by its source text only; an object lists
    its own enumerable string-keyed data properties in enumeration order,
    and [plain] tells whether its prototype is [Object.prototype]. *)
Inductive value : Type :=
| VUndefined
| VNull
| VBool (b : bool)
| VNum (n : Z)
| VStr (s : string)
| VFun (text : string)
| VArr (items : list value)
| VObj (plain : bool) (props : list (string * value)).

(** [type(v)] *)
Definition type (v : value) : string :=
  match v with
  | VNull => "null"
  | VUndefined => "undefined"
  | VArr _ => "array"
  | VBool _ => "boolean"
  | VNum _ => "number"
  | VStr _ => "string"
  | VFun _ => "function"
  | VObj _ _ => "object"
  end.

(** [`${v}`]: the string a template literal substitutes for [v]. *)
Fixpoint template (v : value) : string :=
  match v with
  | VUndefined => "undefined"
  | VNull => "null"
  | VBool b => if b then "true" else "false"
  | VNum n => pretty n
  | VStr s => s
  | VFun text => text
  | VArr items =>
      String.concat ","
        (map (λ x, match x with
                   | VUndefined | VNull => ""
                   | _ => template x
                   end) items)
  | VObj _ _ => "[object Object]"
  end.

(** A built-in function, as a template literal prints it. *)
Definition native (name : string) : value :=
  VFun ("function " +:+ name +:+ "() { [native code] }").

(** What every plain object inherits from [Object.prototype]. *)
Definition object_prototype : list (string * value) :=
  [ ("constructor", native "Object");
    ("__defineGetter__", native "__defineGetter__");
    ("__defineSetter__", native "__defineSetter__");
    ("hasOwnProperty", native "hasOwnProperty");
    ("__lookupGetter__", native "__lookupGetter__");
    ("__lookupSetter__", native "__lookupSetter__");
    ("isPrototypeOf", native "isPrototypeOf");
    ("propertyIsEnumerable", native "propertyIsEnumerable");
    ("toString", native "toString");
    ("valueOf", native "valueOf");
    ("__proto__", VObj false []);
    ("toLocaleString", native "toLocaleString") ].

(** The first entry under [key]. *)
Fixpoint own {A : Type} (props : list (string * A)) (key : string) : option A :=
  match props with
  | [] => None
  | (k, x) :: rest => if decide (k = key) then Some x else own rest key
  end.

(** [o[key]] on a plain object: own property first, then the prototype. *)
Definition get (props : list (string * value)) (key : string) : value :=
  match own props key with
  | Some x => x
  | None => default VUndefined (own object_prototype key)
  end.

(** [Constant]: the literals a schema accepts as implicit guards. *)
Inductive constant : Type :=
| CNull
| CBool (b : bool)
| CNum (n : Z)
| CStr (s : string).

Definition literal (c : constant) : value :=
  match c with
  | CNull => VNull
  | CBool b => VBool b
  | CNum n => VNum n
  | CStr s => VStr s
  end.

(** [v === expected] for a literal [expected]. *)
Definition strict_equal (v : value) (expected : constant) : bool :=
  match v, expected with
  | VNull, CNull => true
  | VBool a, CBool b => bool_decide (a = b)
  | VNum a, CNum b => bool_decide (a = b)
  | VStr a, CStr b => bool_decide (a = b)
  | _, _ => false
  end.

(** ** Function objects *)

(** Guard functions and factories are known by reference. *)
Abbreviation gref := nat (only parsing).
Abbreviation fref := nat (only parsing).

(** [Guarding]: a guard or a factory returning it, both functions.
    [resolve] tells them apart by the number of declared parameters: a guard
    declares the value it checks, a factory declares none. *)
Inductive guarding : Type :=
| GuardRef (guard : gref)
| FactoryRef (factory : fref).

Global Instance guarding_eq_dec : EqDecision guarding.
Proof. solve_decision. Defined.

(** What a guard does with a value: report a diagnostic, or apply a captured
    guard and go on with its result. *)
Inductive check : Type :=
| Report (diagnostic : string)
| Apply (guard : gref) (v : value) (k : string → check).

Definition Guard : Type := value → check.

(** A function object that can be invoked as a guard: the deferred lookup
    that [materialize] creates for [key], or an ordinary closure, with the
    number of parameters it declares (its [length]). *)
Inductive function : Type :=
| Thunk (key : fref)
| Lambda (parameters : nat) (body : Guard).

(** ** Guards *)

Definition illegal (v : value) (expected : string) : string :=
  "illegal <" +:+ type v +:+ "> value, expected <" +:+ expected +:+ ">".

Definition aNull_guard : Guard := λ v,
  Report (match v with VNull => "" | _ => illegal v "null" end).

Definition aBoolean_guard : Guard := λ v,
  Report (match v with VBool _ => "" | _ => illegal v "boolean" end).

Definition aNumber_guard : Guard := λ v,
  Report (match v with VNum _ => "" | _ => illegal v "number" end).

Definition aString_guard : Guard := λ v,
  Report (match v with VStr _ => "" | _ => illegal v "string" end).

Definition aFunction_guard : Guard := λ v,
  Report (match v with VFun _ => "" | _ => illegal v "function" end).

Definition anUnknown_guard : Guard := λ _, Report "".

(** The loop of [anArray]: [for (index = 0; index < v.length; index++)]. *)
Fixpoint anArray_loop (guard : gref) (index : nat) (v : list value) : check :=
  match v with
  | [] => Report ""
  | x :: rest =>
      Apply guard x (λ result,
        if decide (result = "")
        then anArray_loop guard (S index) rest
        else Report ("[" +:+ pretty index +:+ "]: " +:+ result))
  end.

Definition anArray_guard (guard : option gref) : Guard := λ v,
  match v with
  | VArr items =>
      match guard with
      | None => Report ""
      | Some guard => anArray_loop guard 0 items
      end
  | _ => Report (illegal v "array")
  end.

Definition isObject (v : value) : bool :=
  match v with
  | VObj plain _ => plain
  | _ => false
  end.

Definition object_guard : Guard := λ v,
  Report (if isObject v then "" else illegal v "object").

(** The loop of [entry]: [for (const key in v)]. *)
Fixpoint entry_loop (keyGuard valueGuard : gref) (v : list (string * value))
    (keys : list string) : check :=
  match keys with
  | [] => Report ""
  | key :: rest =>
      Apply keyGuard (VStr key) (λ keyError,
        if decide (keyError = "")
        then Apply valueGuard (get v key) (λ valError,
               if decide (valError = "")
               then entry_loop keyGuard valueGuard v rest
               else Report (key +:+ ": " +:+ valError))
        else Report (key +:+ ": " +:+ keyError))
  end.

Definition entry_guard (keyGuard valueGuard : gref) : Guard := λ v,
  match v with
  | VObj true props => entry_loop keyGuard valueGuard props (map fst props)
  | _ => Report (illegal v "object")
  end.

(** [constant(expected)] *)
Definition constant_guard (expected : constant) : Guard := λ v,
  Report (if strict_equal v expected then ""
          else "unexpected <" +:+ template v +:+ "> value, expected <"
               +:+ template (literal expected) +:+ ">").

(** Second loop of [schema]: [for (const key in v)], the keys the schema
    does not list. *)
Fixpoint schema_rest (keys : gset string) (extra : option gref)
    (v : list (string * value)) (own_keys : list string) : check :=
  match own_keys with
  | [] => Report ""
  | key :: rest =>
      if decide (key ∈ keys)
      then schema_rest keys extra v rest
      else match extra with
           | None => Report (key +:+ ": unexpected property")
           | Some extra' =>
               Apply extra' (get v key) (λ result,
                 if decide (result = "")
                 then schema_rest keys extra v rest
                 else Report (key +:+ ": " +:+ result))
           end
  end.

(** First loop of [schema]: [for (const key in guards)], then [next]. *)
Fixpoint schema_loop (guards : list (string * gref))
    (v : list (string * value)) (next : check) : check :=
  match guards with
  | [] => next
  | (key, guard) :: rest =>
      Apply guard (get v key) (λ result,
        if decide (result = "")
        then schema_loop rest v next
        else Report (key +:+ ": " +:+ result))
  end.

Definition schema_guard (guards : list (string * gref)) (keys : gset string)
    (extra : option gref) : Guard := λ v,
  match v with
  | VObj true props =>
      schema_loop guards props (schema_rest keys extra props (map fst props))
  | _ => Report (illegal v "object")
  end.

(** The loop of [all]: [for (const guard of guards)]. *)
Fixpoint all_loop (guards : list gref) (v : value) : check :=
  match guards with
  | [] => Report ""
  | guard :: rest =>
      Apply guard v (λ result,
        if decide (result = "") then all_loop rest v else Report result)
  end.

(** The guard [all] returns, by the number of resolved guards. *)
Definition all_guard (guards : list gref) : Guard :=
  match guards with
  | [] => λ _, Report ""
  | [only] => λ v, Apply only v Report
  | [first; second] => λ v,
      Apply first v (λ result,
        if decide (result = "") then Apply second v Report else Report result)
  | _ => λ v, all_loop guards v
  end.

(** The parameters that guard declares: none for no guards, [v] otherwise. *)
Definition all_parameters (guards : list gref) : nat :=
  match guards with
  | [] => 0
  | _ => 1
  end.

(** [types]: constructor names to lowercase type names. *)
Definition lower (c : ascii) : ascii :=
  let n := nat_of_ascii c in
  if (65 <=? n)%nat && (n <=? 90)%nat then ascii_of_nat (n + 32) else c.

Fixpoint toLowerCase (s : string) : string :=
  match s with
  | EmptyString => EmptyString
  | String c rest => String (lower c) (toLowerCase rest)
  end.

Definition types : list (string * value) :=
  map (λ key, (key, VStr (toLowerCase key)))
      ["Null"; "Boolean"; "Number"; "String"; "Function"].

(** [\p{Lu}] on the ASCII letters. *)
Definition uppercase (c : ascii) : bool :=
  let n := nat_of_ascii c in (65 <=? n)%nat && (n <=? 90)%nat.

(** [name.replace(/^an?(?=\p{Lu})/u, "")] *)
Definition strip (name : string) : string :=
  match name with
  | String "a" (String "n" (String c rest)) =>
      if uppercase c then String c rest else name
  | String "a" (String c rest) =>
      if uppercase c then String c rest else name
  | _ => name
  end.

(** [label(name)]: [types[stripped] ?? stripped].  [types] is an ordinary
    object, so the lookup also sees what it inherits. *)
Definition label (name : string) : value :=
  let stripped := strip name in
  match get types stripped with
  | VUndefined | VNull => VStr stripped
  | found => found
  end.

(** [names]: each entry name as [`<${label(name)}>`]. *)
Definition names (entries : list (string * gref)) : list string :=
  map (λ '(name, _), "<" +:+ template (label name) +:+ ">") entries.

(** [expected]: one name, or the names joined with commas and a final "or". *)
Definition expected (names : list string) : string :=
  match names with
  | [only] => only
  | _ => String.concat ", " (removelast names) +:+ " or "
         +:+ default "undefined" (last names)
  end.

Definition error (expected : string) (v : value) : string :=
  "unexpected <" +:+ type v +:+ "> value, expected " +:+ expected.

(** The loop of [any]: [for (const guard of guards)]. *)
Fixpoint any_loop (guards : list gref) (v : value) (failure : string) : check :=
  match guards with
  | [] => Report failure
  | guard :: rest =>
      Apply guard v (λ result,
        if decide (result = "") then Report "" else any_loop rest v failure)
  end.

(** The guard [any] returns, by the number of entries. *)
Definition any_guard (entries : list (string * gref)) : Guard :=
  let expected := expected (names entries) in
  match entries with
  | [] => λ v, Report ("unexpected <" +:+ type v +:+ "> value")
  | [(_, first)] => λ v,
      Apply first v (λ result,
        if decide (result = "") then Report "" else Report (error expected v))
  | [(_, first); (_, second)] => λ v,
      Apply first v (λ result,
        if decide (result = "") then Report ""
        else Apply second v (λ result',
               if decide (result' = "") then Report ""
               else Report (error expected v)))
  | _ => λ v, any_loop (map snd entries) v (error expected v)
  end.

(** ** Invoking guards *)

(** Ghost record of what the resolver and its callers did, oldest first. *)
Inductive event : Type :=
| Installed (key : fref) (guard : gref)
| Invoked (factory : fref)
| Called (guard : gref) (v : value) (result : string).

(** [cache] is the module's [WeakMap]; [heap] holds the guard functions
    created so far, a reference being an index into it. *)
Record state : Type := State {
  cache : gmap fref gref;
  heap : list function;
  trace : list event
}.

Definition initial : state := State ∅ [] [].

(** A guard running: every application it makes goes through [invoke]. *)
Fixpoint eval (invoke : gref → value → option string) (c : check) : option string :=
  match c with
  | Report diagnostic => Some diagnostic
  | Apply guard v k =>
      match invoke guard v with
      | Some result => eval invoke (k result)
      | None => None
      end
  end.

(** The applications a guard makes while running, in order. *)
Fixpoint applied (invoke : gref → value → option string) (c : check)
    : list (gref * value) :=
  match c with
  | Report _ => []
  | Apply guard v k =>
      (guard, v) :: match invoke guard v with
                    | Some result => applied invoke (k result)
                    | None => []
                    end
  end.

(** [thunk], the deferred lookup of [materialize]: [self] is the thunk's own
    reference and [key] the factory it stands for. *)
Definition thunk (cache : gmap fref gref) (invoke : gref → value → option string)
    (self : gref) (key : fref) (v : value) : option string :=
  match cache !! key with
  | Some guard => if decide (guard ≠ self) then invoke guard v else Some ""
  | None => Some ""
  end.

(** [guard(v)] in state [σ]; [None] when [fuel] nested applications do not
    suffice. *)
Fixpoint call (fuel : nat) (σ : state) (guard : gref) (v : value) : option string :=
  match fuel with
  | 0 => None
  | S fuel' =>
      match heap σ !! guard with
      | Some (Thunk key) => thunk (cache σ) (call fuel' σ) guard key v
      | Some (Lambda _ body) => eval (call fuel' σ) (body v)
      | None => None
      end
  end.

(** ** Programs *)

(** Code that builds guards: it returns or throws, resolves a source, creates
    a guard function, or applies a guard. *)
Inductive prog (A : Type) : Type :=
| Ret (a : A)
| Throw (e : string)
| Resolve (source : guarding) (k : gref → prog A)
| Closure (parameters : nat) (body : Guard) (k : gref → prog A)
| Invoke (guard : gref) (v : value) (k : string → prog A).

Arguments Ret {A} a.
Arguments Throw {A} e.
Arguments Resolve {A} source k.
Arguments Closure {A} parameters body k.
Arguments Invoke {A} guard v k.

Fixpoint bind {A B : Type} (p : prog A) (f : A → prog B) : prog B :=
  match p with
  | Ret a => f a
  | Throw e => Throw e
  | Resolve source k => Resolve source (λ g, bind (k g) f)
  | Closure parameters body k =>
      Closure parameters body (λ g, bind (k g) f)
  | Invoke guard v k => Invoke guard v (λ r, bind (k r) f)
  end.

Global Instance prog_ret : MRet prog := @Ret.
Global Instance prog_bind : MBind prog := λ A B f p, bind p f.

Inductive outcome (A : Type) : Type :=
| Returned (a : A)
| Thrown (e : string)
| Exhausted
| NotAGuard.

Arguments Returned {A} a.
Arguments Thrown {A} e.
Arguments Exhausted {A}.
Arguments NotAGuard {A}.

Definition cache_set (key : fref) (guard : gref) (σ : state) : state :=
  State (<[key := guard]> (cache σ)) (heap σ) (trace σ ++ [Installed key guard]).

Definition allocate (fn : function) (σ : state) : state :=
  State (cache σ) (heap σ ++ [fn]) (trace σ).

Definition record (e : event) (σ : state) : state :=
  State (cache σ) (heap σ) (trace σ ++ [e]).

Section interp.

(** [construct factory] is the call [factory()]; [depth] bounds the nesting
    of guard applications. *)
Context (construct : fref → state → outcome gref * state) (depth : nat).

Definition materialize (factory : fref) (σ : state) : outcome gref * state :=
  let key := factory in
  match cache σ !! key with
  | None =>
      let thunk := length (heap σ) in
      let σ1 := cache_set key thunk (allocate (Thunk key) σ) in
      match construct factory (record (Invoked factory) σ1) with
      | (Returned guard, σ2) => (Returned guard, cache_set key guard σ2)
      | (Thrown e, σ2) => (Thrown e, σ2)
      | (Exhausted, σ2) => (Exhausted, σ2)
      | (NotAGuard, σ2) => (NotAGuard, σ2)
      end
  | Some cached => (Returned cached, σ)
  end.

(** [resolve(source)].  A source that declares parameters is a guard and is
    returned as it is.  One that declares none is called as a factory; when
    it is in fact a guard, the call returns a diagnostic where a guard is
    expected, and whatever applies it later fails: [NotAGuard]. *)
Definition resolve (source : guarding) (σ : state) : outcome gref * state :=
  match source with
  | GuardRef guard =>
      match heap σ !! guard with
      | Some (Lambda 0 _) => (NotAGuard, σ)
      | _ => (Returned guard, σ)
      end
  | FactoryRef factory => materialize factory σ
  end.

Fixpoint interp {A : Type} (p : prog A) (σ : state) : outcome A * state :=
  match p with
  | Ret a => (Returned a, σ)
  | Throw e => (Thrown e, σ)
  | Resolve source k =>
      match resolve source σ with
      | (Returned guard, σ') => interp (k guard) σ'
      | (Thrown e, σ') => (Thrown e, σ')
      | (Exhausted, σ') => (Exhausted, σ')
      | (NotAGuard, σ') => (NotAGuard, σ')
      end
  | Closure parameters body k =>
      interp (k (length (heap σ))) (allocate (Lambda parameters body) σ)
  | Invoke guard v k =>
      match call depth σ guard v with
      | Some result => interp (k result) (record (Called guard v result) σ)
      | None => (Exhausted, σ)
      end
  end.

End interp.

(** [factory()], for the factories of the program: [factories] gives each
    one its body, [fuel] bounds the nesting of factory calls. *)
Fixpoint construct (factories : fref → prog gref) (fuel : nat)
    (factory : fref) (σ : state) : outcome gref * state :=
  match fuel with
  | 0 => (Exhausted, σ)
  | S fuel' => interp (construct factories fuel') fuel' (factories factory) σ
  end.

Definition exec (factories : fref → prog gref) (fuel : nat) {A : Type}
    (p : prog A) (σ : state) : outcome A * state :=
  interp (construct factories fuel) fuel p σ.

(** When [materialize] starts on a factory without entry, [factory()]
    runs in this state: the thunk is created and cached. *)
Definition pending (factory : fref) (σ : state) : state :=
  record (Invoked factory)
    (cache_set factory (length (heap σ)) (allocate (Thunk factory) σ)).

(** ** Guard factories and combinators *)

(** [resolve(source)] for an optional source. *)
Definition resolve_optional (source : option guarding) : prog (option gref) :=
  match source with
  | None => Ret None
  | Some source' => Resolve source' (λ guard, Ret (Some guard))
  end.

(** [sources.map(source => resolve(source))] *)
Fixpoint resolve_each (sources : list guarding) : prog (list gref) :=
  match sources with
  | [] => Ret []
  | source :: rest =>
      Resolve source (λ guard,
        guards ← resolve_each rest; Ret (guard :: guards))
  end.

(** [Object.entries(sources).map(([name, source]) => [name, resolve(source)])] *)
Fixpoint resolve_entries (sources : list (string * guarding))
    : prog (list (string * gref)) :=
  match sources with
  | [] => Ret []
  | (name, source) :: rest =>
      Resolve source (λ guard,
        entries ← resolve_entries rest; Ret ((name, guard) :: entries))
  end.

Definition aNull : prog gref := Closure 1 aNull_guard Ret.
Definition aBoolean : prog gref := Closure 1 aBoolean_guard Ret.
Definition aNumber : prog gref := Closure 1 aNumber_guard Ret.
Definition aString : prog gref := Closure 1 aString_guard Ret.
Definition aFunction : prog gref := Closure 1 aFunction_guard Ret.
Definition anUnknown : prog gref := Closure 0 anUnknown_guard Ret.

Definition anArray (element : option guarding) : prog gref :=
  guard ← resolve_optional element;
  Closure 1 (anArray_guard guard) Ret.

(** A schema entry: a literal ([isConstant]) or a guarding. *)
Inductive schema_entry : Type :=
| Literal (c : constant)
| Guarding (source : guarding).

(** [Object.entries(arg).map(([key, value]) =>
      [key, isConstant(value) ? constant(value) : resolve(value)])] *)
Fixpoint schema_guards (arg : list (string * schema_entry))
    : prog (list (string * gref)) :=
  match arg with
  | [] => Ret []
  | (key, value) :: rest =>
      guard ← match value with
              | Literal c => Closure 1 (constant_guard c) Ret
              | Guarding source => Resolve source Ret
              end;
      guards ← schema_guards rest;
      Ret ((key, guard) :: guards)
  end.

Definition schema (arg : list (string * schema_entry)) (rest : option guarding)
    : prog gref :=
  guards ← schema_guards arg;
  let keys : gset string := list_to_set (map fst arg) in
  extra ← resolve_optional rest;
  Closure 1 (schema_guard guards keys extra) Ret.

Definition entry (asKey aValue : guarding) : prog gref :=
  keyGuard ← Resolve asKey Ret;
  valueGuard ← Resolve aValue Ret;
  Closure 1 (entry_guard keyGuard valueGuard) Ret.

(** The first argument of [anObject]: a guarding or a schema. *)
Inductive anObject_arg : Type :=
| Key (asKey : guarding)
| Schema (arg : list (string * schema_entry)).

Definition anObject (a : option anObject_arg) (b : option guarding) : prog gref :=
  match a, b with
  | None, _ => Closure 1 object_guard Ret
  | Some (Key asKey), Some aValue => entry asKey aValue
  | Some (Key _), None => schema [] None
  | Some (Schema arg), _ => schema arg b
  end.

Definition all (sources : list guarding) : prog gref :=
  guards ← resolve_each sources;
  Closure (all_parameters guards) (all_guard guards) Ret.

Definition any (sources : list (string * guarding)) : prog gref :=
  entries ← resolve_entries sources;
  Closure 1 (any_guard entries) Ret.

(** ** Objects and the validating cast *)

(** [as] keeps or returns the very object it is given, so here values are
    primitives, functions or references into a store of objects. *)
Abbreviation loc := nat (only parsing).

Inductive jsval : Type :=
| JUndefined
| JNull
| JBool (b : bool)
| JNum (n : Z)
| JStr (s : string)
| JFun (f : guarding)
| JObj (l : loc).

Global Instance jsval_eq_dec : EqDecision jsval.
Proof. solve_decision. Defined.

(** Property keys: strings and symbols. *)
Inductive key : Type :=
| KStr (s : string)
| KSym (id : nat).

Global Instance key_eq_dec : EqDecision key.
Proof. solve_decision. Defined.

Global Instance key_countable : Countable key.
Proof.
  refine (inj_countable'
            (λ k, match k with KStr s => inl s | KSym id => inr id end)
            (λ x, match x with inl s => KStr s | inr id => KSym id end) _).
  by intros [].
Defined.

(** [const Guarded = Symbol("Guarded")] *)
Definition Guarded : key := KSym 0.

(** A data property, with its attributes. *)
Record descriptor : Type := Descriptor {
  desc_value : jsval;
  desc_writable : bool;
  desc_enumerable : bool;
  desc_configurable : bool
}.

Global Instance descriptor_eq_dec : EqDecision descriptor.
Proof. solve_decision. Defined.

Inductive prototype : Type :=
| ObjectPrototype
| ArrayPrototype
| NullPrototype
| ObjectAt (l : loc).

Global Instance prototype_eq_dec : EqDecision prototype.
Proof. solve_decision. Defined.

Record object : Type := Object {
  proto : prototype;
  is_extensible : bool;
  properties : gmap key descriptor
}.

Global Instance object_eq_dec : EqDecision object.
Proof. solve_decision. Defined.

(** The built-in prototypes stay outside the store. *)
Abbreviation store := (list object) (only parsing).

(** The property [k] that [l] has or inherits. *)
Fixpoint find_property (fuel : nat) (h : store) (l : loc) (k : key)
    : option descriptor :=
  match fuel with
  | 0 => None
  | S fuel' =>
      match h !! l with
      | None => None
      | Some o =>
          match properties o !! k with
          | Some d => Some d
          | None =>
              match proto o with
              | ObjectAt parent => find_property fuel' h parent k
              | _ => None
              end
          end
      end
  end.

(** [v[k]] *)
Definition get_property (h : store) (v : jsval) (k : key) : jsval :=
  match v with
  | JObj l => from_option desc_value JUndefined (find_property (length h) h l k)
  | _ => JUndefined
  end.

(** The fields of a descriptor passed to [Object.defineProperty]. *)
Record attributes : Type := Attributes {
  attr_value : option jsval;
  attr_writable : option bool;
  attr_enumerable : option bool;
  attr_configurable : option bool
}.

(** Whether a non-configurable property refuses the change. *)
Definition refused (current : descriptor) (a : attributes) : bool :=
  negb (desc_configurable current)
  && (bool_decide (attr_configurable a = Some true)
      || bool_decide (attr_enumerable a = Some (negb (desc_enumerable current)))
      || (negb (desc_writable current)
          && (bool_decide (attr_writable a = Some true)
              || bool_decide (is_Some (attr_value a)
                              ∧ attr_value a ≠ Some (desc_value current))))).

(** [Object.defineProperty(o, k, a)] on data properties; [None] is its
    [TypeError]. *)
Definition define_own_property (o : object) (k : key) (a : attributes)
    : option object :=
  match properties o !! k with
  | None =>
      if is_extensible o
      then Some (Object (proto o) (is_extensible o)
                   (<[k := Descriptor (default JUndefined (attr_value a))
                                      (default false (attr_writable a))
                                      (default false (attr_enumerable a))
                                      (default false (attr_configurable a))]>
                      (properties o)))
      else None
  | Some current =>
      if refused current a then None
      else Some (Object (proto o) (is_extensible o)
                   (<[k := Descriptor (default (desc_value current) (attr_value a))
                                      (default (desc_writable current) (attr_writable a))
                                      (default (desc_enumerable current) (attr_enumerable a))
                                      (default (desc_configurable current) (attr_configurable a))]>
                      (properties o)))
  end.

Definition frozen_descriptor (d : descriptor) : descriptor :=
  Descriptor (desc_value d) false (desc_enumerable d) false.

(** [Object.freeze(o)] *)
Definition freeze (o : object) : object :=
  Object (proto o) false (frozen_descriptor <$> properties o).

(** [extensible(o)]: a new object with the own properties of [o] but the
    mark.  Every key is new on [{}], so each property is created with the
    descriptor given for it. *)
Definition extensible (o : object) : object :=
  Object ObjectPrototype true
         (filter (λ entry : key * descriptor, entry.1 ≠ Guarded) (properties o)).

(** The descriptor [brand] defines under [Guarded]. *)
Definition mark (guarding : guarding) : attributes :=
  Attributes (Some (JFun guarding)) None (Some false) (Some true).

(** [brand(o)] *)
Definition brand (guarding : guarding) (h : store) (l : loc)
    : outcome jsval * store :=
  match h !! l with
  | None => (Thrown "TypeError", h)
  | Some o =>
      let '(target, at_, h') :=
        if is_extensible o then (o, l, h)
        else (extensible o, length h, h ++ [extensible o]) in
      match define_own_property target Guarded (mark guarding) with
      | None => (Thrown "TypeError", h')
      | Some marked => (Returned (JObj at_), <[at_ := freeze marked]> h')
      end
  end.

(** What [as] and [is] keep: the source and the guard it resolved to. *)
Record assertion : Type := Assertion {
  guarding_of : guarding;
  guard_of : gref
}.

(** [is(guarding)] and [as(guarding)] resolve once. *)
Definition is_ (guarding : guarding) : prog assertion :=
  Resolve guarding (λ guard, Ret (Assertion guarding guard)).

Definition as_ (guarding : guarding) : prog assertion :=
  Resolve guarding (λ guard, Ret (Assertion guarding guard)).

Section cast.

(** [apply guard h v] is [guard(v)] on the objects of [h]: a guard reads
    the store and does not change it. *)
Context (apply : gref → store → jsval → option string).

(** The predicate [is] returns. *)
Definition is_test (a : assertion) (v : jsval) (h : store) : option bool :=
  result ← apply (guard_of a) h v; Some (bool_decide (result = "")).

(** The cast [as] returns. *)
Definition as_cast (a : assertion) (v : jsval) (h : store)
    : outcome jsval * store :=
  let guarding := guarding_of a in
  let object := match v with JObj _ => true | _ => false end in
  if object && bool_decide (get_property h v Guarded = JFun guarding)
  then (Returned v, h)
  else match apply (guard_of a) h v with
       | None => (Exhausted, h)
       | Some result =>
           if decide (result = "")
           then match v with
                | JObj l => brand guarding h l
                | _ => (Returned v, h)
                end
           else (Thrown result, h)
       end.

End cast.

(** What a caller may try on an object afterwards. *)
Inductive mutation : Type :=
| Assign (k : key) (x : jsval)
| Delete (k : key)
| Define (k : key) (a : attributes)
| SetPrototype (p : prototype).

(** [o[k] = x]: an own writable property takes the value; a new one is
    created unless a read-only property is inherited or the object is not
    extensible.  [None] when the assignment is refused. *)
Definition assign (h : store) (o : object) (k : key) (x : jsval) : option object :=
  match properties o !! k with
  | Some d =>
      if desc_writable d
      then Some (Object (proto o) (is_extensible o)
                   (<[k := Descriptor x true (desc_enumerable d) (desc_configurable d)]>
                      (properties o)))
      else None
  | None =>
      let inherited :=
        match proto o with
        | ObjectAt parent => find_property (length h) h parent k
        | _ => None
        end in
      if from_option desc_writable true inherited && is_extensible o
      then Some (Object (proto o) (is_extensible o)
                   (<[k := Descriptor x true true true]> (properties o)))
      else None
  end.

(** One attempt on the object at [l]; [None] when it is refused (ignored in
    sloppy mode, a [TypeError] in strict mode). *)
Definition attempt (m : mutation) (h : store) (l : loc) : option store :=
  o ← h !! l;
  o' ← match m with
       | Assign k x => assign h o k x
       | Delete k =>
           match properties o !! k with
           | Some d =>
               if desc_configurable d
               then Some (Object (proto o) (is_extensible o) (delete k (properties o)))
               else None
           | None => Some o
           end
       | Define k a => define_own_property o k a
       | SetPrototype p =>
           if is_extensible o || bool_decide (p = proto o)
           then Some (Object p (is_extensible o) (properties o))
           else None
       end;
  Some (<[l := o']> h).

(** [Object.isFrozen(o)] *)
Definition isFrozen (o : object) : Prop :=
  is_extensible o = false
  ∧ ∀ k d, properties o !! k = Some d →
           desc_writable d = false ∧ desc_configurable d = false.

(** * Properties *)

(** ** How the resolver's state evolves *)

(** How many times [factory()] was called for [f]. *)
Fixpoint invocations (f : fref) (t : list event) : nat :=
  match t with
  | [] => 0
  | Invoked f' :: rest => (if decide (f' = f) then 1 else 0) + invocations f rest
  | _ :: rest => invocations f rest
  end.

Definition cached (σ : state) (f : fref) : nat :=
  if cache σ !! f is Some _ then 1 else 0.

(** From [σ] to [σ']: function objects and events are only added, an entry
    of the cache stays as it is, and a factory is invoked exactly when its
    entry appears. *)
Record evolves (σ σ' : state) : Prop := Evolves {
  evolves_heap : heap σ `prefix_of` heap σ';
  evolves_trace : trace σ `prefix_of` trace σ';
  evolves_cache : ∀ f g, cache σ !! f = Some g → cache σ' !! f = Some g;
  evolves_balance : ∀ f,
    invocations f (trace σ') + cached σ f = invocations f (trace σ) + cached σ' f
}.

(** Every thunk in the store stands for a factory that has an entry. *)
Definition thunks_cached (σ : state) : Prop :=
  ∀ t key, heap σ !! t = Some (Thunk key) → is_Some (cache σ !! key).

(** All recorded applications of a guard to a value agree, in every run. *)
Definition deterministic_across_calls : Prop :=
  ∀ factories fuel (p : prog string) o σ guard v result1 result2,
    exec factories fuel p initial = (o, σ) →
    Called guard v result1 ∈ trace σ →
    Called guard v result2 ∈ trace σ →
    result1 = result2.

(** The sources are resolved one after the other, in the order given. *)
Inductive resolved_in_order (factories : fref → prog gref) (fuel : nat)
    : state → list guarding → list gref → state → Prop :=
| resolved_nil σ : resolved_in_order factories fuel σ [] [] σ
| resolved_cons σ source sources guard guards σ1 σ2 :
    exec factories fuel (Resolve source Ret) σ = (Returned guard, σ1) →
    resolved_in_order factories fuel σ1 sources guards σ2 →
    resolved_in_order factories fuel σ (source :: sources) (guard :: guards) σ2.



(** The object [brand] leaves behind, given the properties it started from. *)
Definition branded (guarding : guarding) (p : prototype)
    (properties : gmap key descriptor) : object :=
  freeze (Object p true
            (<[Guarded := Descriptor (JFun guarding) false false true]> properties)).

(** ** Sample programs *)

(** [aTree]: a number, or a list of trees. *)
Definition aTree : fref := 2.

Definition sample (f : fref) : prog gref :=
  match f with
  | 0 => aNumber
  | 1 => aString
  | 2 => list ← anArray (Some (FactoryRef aTree));
         any [("aNumber", FactoryRef 0); ("list", GuardRef list)]
  | 3 => guard ← anArray (Some (FactoryRef 3));
         Invoke guard (VArr [VNum 42]) (λ _, Ret guard)
  | 4 => aNull
  | 5 => aBoolean
  | 6 => anUnknown
  | _ => number ← Resolve (FactoryRef 0) Ret; Throw "failed"
  end.

(** A closed schema: [{ kind: "circle", radius: aNumber }]. *)
Definition circle : list (string * schema_entry) :=
  [("kind", Literal (CStr "circle")); ("radius", Guarding (FactoryRef 0))].

(** A guard that accepts every value, as [anUnknown]. *)
Definition accept : nat → list object → jsval → option string :=
  λ _ _ _, Some "".

(** [Object.freeze({ name: "Alice" })] *)
Definition alice : object :=
  Object ObjectPrototype false
         {[ KStr "name" := Descriptor (JStr "Alice") false true false ]}.

(** [as(anUnknown)({})], [anUnknown] being factory 6 of [sample], and an
    object created from it with [Object.create], with an own property [x]. *)
Definition base : object := branded (FactoryRef 6) ObjectPrototype ∅.

Definition derived (x : Z) : object :=
  Object (ObjectAt 0) true {[ KStr "x" := Descriptor (JNum x) true true true ]}.

(** Build a guard and apply it to a value, starting from nothing. *)
Definition checking (build : prog gref) (v : value) : outcome string :=
  (exec sample 20 (guard ← build; Invoke guard v Ret) initial).1.

(** [{ name: "Alice" }] and [{ name: "Alice", age: 30 }], etc. *)
Definition person (name age : option value) : value :=
  VObj true (match name with Some x => [("name", x)] | None => [] end
             ++ match age with Some x => [("age", x)] | None => [] end).

(** ** Further notions *)

(** The five guards that look at the type of the value only. *)
Inductive primitive : Type :=
| PNull
| PBoolean
| PNumber
| PString
| PFunction.

Global Instance primitive_eq_dec : EqDecision primitive.
Proof. solve_decision. Defined.

Definition primitive_guard (p : primitive) : Guard :=
  match p with
  | PNull => aNull_guard
  | PBoolean => aBoolean_guard
  | PNumber => aNumber_guard
  | PString => aString_guard
  | PFunction => aFunction_guard
  end.

Definition primitive_factory (p : primitive) : prog gref :=
  match p with
  | PNull => aNull
  | PBoolean => aBoolean
  | PNumber => aNumber
  | PString => aString
  | PFunction => aFunction
  end.

(** The type each of them expects, as [type] names it. *)
Definition primitive_type (p : primitive) : string :=
  match p with
  | PNull => "null"
  | PBoolean => "boolean"
  | PNumber => "number"
  | PString => "string"
  | PFunction => "function"
  end.

(** A number, or an array of such values. *)
Fixpoint tree (v : value) : bool :=
  match v with
  | VNum _ => true
  | VArr items => forallb tree items
  | _ => false
  end.

(** Every object that has a mark of its own is frozen. *)
Definition marks_frozen (h : list object) : Prop :=
  ∀ l o, h !! l = Some o → is_Some (properties o !! Guarded) → isFrozen o.

(** A factory that is the conjunction of itself alone:
    [const f = () => all([f])]. *)
Definition unfounded (f : fref) : prog gref := all [FactoryRef f].

(** ** Lemmas *)

Lemma invocations_app f t t' :
  invocations f (t ++ t') = invocations f t + invocations f t'.
Proof.
  induction t as [|e t IH]; simpl; [done|].
  destruct e; rewrite IH; lia.
Qed.

Lemma cached_Some σ f g : cache σ !! f = Some g → cached σ f = 1.
Proof. unfold cached. by intros ->. Qed.

Lemma cached_None σ f : cache σ !! f = None → cached σ f = 0.
Proof. unfold cached. by intros ->. Qed.

Lemma cached_cache_set key guard σ f :
  cached (cache_set key guard σ) f = if decide (key = f) then 1 else cached σ f.
Proof.
  unfold cached, cache_set. cbn [cache].
  destruct (decide (key = f)) as [->|Hne].
  - by rewrite lookup_insert_eq.
  - by rewrite lookup_insert_ne.
Qed.

Lemma evolves_refl σ : evolves σ σ.
Proof. split; auto. Qed.

Lemma evolves_trans σ1 σ2 σ3 : evolves σ1 σ2 → evolves σ2 σ3 → evolves σ1 σ3.
Proof.
  intros [H1 T1 C1 B1] [H2 T2 C2 B2]. split.
  - by etrans.
  - by etrans.
  - eauto.
  - intros f. specialize (B1 f). specialize (B2 f). lia.
Qed.

Lemma evolves_allocate fn σ : evolves σ (allocate fn σ).
Proof. split; simpl; auto. by apply prefix_app_r. Qed.

Lemma evolves_called g v r σ : evolves σ (record (Called g v r) σ).
Proof.
  split; simpl; auto.
  - by apply prefix_app_r.
  - intros f. rewrite invocations_app. simpl. unfold cached. simpl. lia.
Qed.

Section interp_evolves.

Context (construct : fref → state → outcome gref * state) (depth : nat).
Hypothesis construct_evolves :
  ∀ f σ o σ', construct f σ = (o, σ') → evolves σ σ'.

Lemma materialize_fresh factory σ :
  cache σ !! factory = None →
  materialize construct factory σ =
    match construct factory (pending factory σ) with
    | (Returned guard, σ2) => (Returned guard, cache_set factory guard σ2)
    | (Thrown e, σ2) => (Thrown e, σ2)
    | (Exhausted, σ2) => (Exhausted, σ2)
    | (NotAGuard, σ2) => (NotAGuard, σ2)
    end.
Proof. unfold materialize. by intros ->. Qed.

Lemma materialize_cached factory σ cached :
  cache σ !! factory = Some cached →
  materialize construct factory σ = (Returned cached, σ).
Proof. unfold materialize. by intros ->. Qed.

(** Until [factory()] returns, the entry of [factory] is the thunk. *)
Lemma pending_evolves factory σ σ2 :
  cache σ !! factory = None →
  evolves (pending factory σ) σ2 →
  heap σ `prefix_of` heap σ2
  ∧ trace σ `prefix_of` trace σ2
  ∧ heap σ2 !! length (heap σ) = Some (Thunk factory)
  ∧ cache σ2 !! factory = Some (length (heap σ))
  ∧ (∀ f g, cache σ !! f = Some g → cache σ2 !! f = Some g)
  ∧ (∀ f, invocations f (trace σ2) + cached σ f
          = invocations f (trace σ) + cached σ2 f).
Proof.
  intros Hnone [Hh Ht Hc Hb]. unfold pending in *.
  cbn [heap trace cache record cache_set allocate] in *. repeat split.
  - etrans; [|exact Hh]. by apply prefix_app_r.
  - etrans; [|exact Ht]. rewrite <- app_assoc. by apply prefix_app_r.
  - eapply prefix_lookup_Some; [|exact Hh].
    rewrite lookup_app_r by done. by rewrite Nat.sub_diag.
  - apply Hc. by rewrite lookup_insert_eq.
  - intros f g Hf. apply Hc.
    rewrite lookup_insert_ne; [done|]. intros ->. congruence.
  - intros f. specialize (Hb f). revert Hb.
    rewrite !invocations_app. cbn [invocations].
    change (cached (record _ ?s) f) with (cached s f).
    rewrite cached_cache_set.
    change (cached (allocate _ ?s) f) with (cached s f).
    destruct (decide (factory = f)) as [->|Hne].
    + rewrite (cached_None _ _ Hnone). lia.
    + lia.
Qed.

Lemma materialize_evolves factory σ o σ' :
  materialize construct factory σ = (o, σ') → evolves σ σ'.
Proof.
  destruct (cache σ !! factory) as [g|] eqn:Hcache.
  - rewrite (materialize_cached _ _ _ Hcache). intros [= <- <-].
    apply evolves_refl.
  - rewrite (materialize_fresh _ _ Hcache).
    destruct (construct factory (pending factory σ)) as [o2 σ2] eqn:Hrun.
    apply construct_evolves in Hrun.
    destruct (pending_evolves _ _ _ Hcache Hrun)
      as (Hh & Ht & _ & Hthunk & Hc & Hb).
    destruct o2 as [guard|e| |]; intros [= <- <-]; try by split.
    split; cbn [heap trace cache cache_set].
    + done.
    + etrans; [exact Ht|]. by apply prefix_app_r.
    + intros f g Hf. rewrite lookup_insert_ne; [by apply Hc|].
      intros ->. congruence.
    + intros f. specialize (Hb f). revert Hb.
      rewrite invocations_app. cbn [invocations]. rewrite Nat.add_0_r.
      rewrite cached_cache_set.
      destruct (decide (factory = f)) as [->|Hne]; [|done].
      by rewrite (cached_Some _ _ _ Hthunk).
Qed.

(** Resolving a guard leaves the state as it is. *)
Lemma resolve_guard guard σ o σ' :
  resolve construct (GuardRef guard) σ = (o, σ') →
  σ' = σ ∧ (o = Returned guard ∨ o = NotAGuard).
Proof.
  simpl. destruct (heap σ !! guard) as [[key|[|n] body]|];
    intros [= <- <-]; auto.
Qed.

Lemma resolve_evolves source σ o σ' :
  resolve construct source σ = (o, σ') → evolves σ σ'.
Proof.
  destruct source as [guard|factory].
  - intros Hres. apply resolve_guard in Hres as [-> _]. apply evolves_refl.
  - apply materialize_evolves.
Qed.

Lemma interp_evolves {A} (p : prog A) σ o σ' :
  interp construct depth p σ = (o, σ') → evolves σ σ'.
Proof.
  revert σ. induction p as [a|e|source k IH|parameters body k IH|guard v k IH];
    intros σ; simpl.
  - intros [= <- <-]. apply evolves_refl.
  - intros [= <- <-]. apply evolves_refl.
  - destruct (resolve construct source σ) as [o1 σ1] eqn:Hres.
    apply resolve_evolves in Hres.
    destruct o1 as [g|e| |]; try by intros [= <- <-].
    intros Hk. eapply evolves_trans; [exact Hres|]. by eapply IH.
  - intros Hk. eapply evolves_trans; [apply evolves_allocate|]. by eapply IH.
  - destruct (call depth σ guard v) as [r|].
    + intros Hk. eapply evolves_trans; [apply evolves_called|]. by eapply IH.
    + intros [= <- <-]. apply evolves_refl.
Qed.

End interp_evolves.

Lemma construct_evolves factories fuel f σ o σ' :
  construct factories fuel f σ = (o, σ') → evolves σ σ'.
Proof.
  revert f σ o σ'. induction fuel as [|fuel IH]; intros f σ o σ'; simpl.
  - intros [= <- <-]. apply evolves_refl.
  - by apply interp_evolves.
Qed.

Lemma exec_evolves factories fuel {A} (p : prog A) σ o σ' :
  exec factories fuel p σ = (o, σ') → evolves σ σ'.
Proof. apply interp_evolves, construct_evolves. Qed.

(** ** The resolver *)

Lemma exec_resolve_factory factories fuel f σ :
  exec factories fuel (Resolve (FactoryRef f) Ret) σ
  = materialize (construct factories fuel) f σ.
Proof.
  unfold exec. simpl.
  by destruct (materialize (construct factories fuel) f σ) as [[guard|e| |] σ'].
Qed.

Lemma exec_resolve_cached factories fuel f σ guard :
  cache σ !! f = Some guard →
  exec factories fuel (Resolve (FactoryRef f) Ret) σ = (Returned guard, σ).
Proof.
  intros Hcache. rewrite exec_resolve_factory. by apply materialize_cached.
Qed.

(** What the thunk does when it is applied. *)
Lemma call_thunk fuel σ t key v :
  heap σ !! t = Some (Thunk key) →
  call (S fuel) σ t v =
    match cache σ !! key with
    | Some guard => if decide (guard = t) then Some "" else call fuel σ guard v
    | None => Some ""
    end.
Proof.
  intros Ht. simpl. rewrite Ht. unfold thunk.
  destruct (cache σ !! key) as [guard|]; [|done].
  by destruct (decide (guard = t)), (decide (guard ≠ t)).
Qed.

(** C1. For a factory without entry, [resolve] creates the deferred guard and
    caches it under the factory before it calls the factory: [factory()]
    runs in [pending f σ], where the entry is the thunk, the trace ends with
    the installation followed by the invocation, and resolving the factory
    again returns the thunk.  Applied later, in any state, the thunk reads
    the entry of its factory then: it delegates to a guard other than
    itself, and reports the empty diagnostic when the entry is itself or is
    missing. *)
Theorem C1_deferred_guard_is_installed_before_the_factory_runs
    factories fuel f σ :
  cache σ !! f = None →
  exec factories (S fuel) (Resolve (FactoryRef f) Ret) σ
    = match exec factories fuel (factories f) (pending f σ) with
      | (Returned guard, σ2) => (Returned guard, cache_set f guard σ2)
      | (Thrown e, σ2) => (Thrown e, σ2)
      | (Exhausted, σ2) => (Exhausted, σ2)
      | (NotAGuard, σ2) => (NotAGuard, σ2)
      end
  ∧ cache (pending f σ) !! f = Some (length (heap σ))
  ∧ heap (pending f σ) !! length (heap σ) = Some (Thunk f)
  ∧ trace (pending f σ)
    = trace σ ++ [Installed f (length (heap σ)); Invoked f]
  ∧ (∀ fuel', exec factories fuel' (Resolve (FactoryRef f) Ret) (pending f σ)
              = (Returned (length (heap σ)), pending f σ))
  ∧ ∀ σ' n v,
      heap σ' !! length (heap σ) = Some (Thunk f) →
      call (S n) σ' (length (heap σ)) v
      = match cache σ' !! f with
        | Some guard =>
            if decide (guard = length (heap σ)) then Some ""
            else call n σ' guard v
        | None => Some ""
        end.
Proof.
  intros Hcache. repeat split.
  - rewrite exec_resolve_factory. by rewrite (materialize_fresh _ _ _ Hcache).
  - unfold pending. cbn [cache record cache_set]. by rewrite lookup_insert_eq.
  - unfold pending. cbn [heap record cache_set allocate].
    rewrite lookup_app_r by done. by rewrite Nat.sub_diag.
  - unfold pending. cbn [trace record cache_set allocate].
    by rewrite <- app_assoc.
  - intros fuel'. apply exec_resolve_cached.
    unfold pending. cbn [cache record cache_set]. by rewrite lookup_insert_eq.
  - intros σ' n v Ht. by apply call_thunk.
Qed.

Lemma C1_witness :
  cache initial !! aTree = None
  ∧ cache (pending aTree initial) !! aTree = Some 0
  ∧ heap (pending aTree initial) !! 0 = Some (Thunk aTree).
Proof.
  split; [reflexivity|].
  pose proof (C1_deferred_guard_is_installed_before_the_factory_runs
                sample 3 aTree initial eq_refl) as (_ & Hc & Hh & _).
  exact (conj Hc Hh).
Defined.

(** After [resolve f] has returned, the entry of [f] is what it returned. *)
Lemma resolve_returned_cached factories fuel f σ guard σ1 :
  exec factories fuel (Resolve (FactoryRef f) Ret) σ = (Returned guard, σ1) →
  cache σ1 !! f = Some guard.
Proof.
  rewrite exec_resolve_factory.
  destruct (cache σ !! f) as [c|] eqn:Hcache.
  - rewrite (materialize_cached _ _ _ _ Hcache). by intros [= <- <-].
  - rewrite (materialize_fresh _ _ _ Hcache).
    destruct (construct factories fuel f (pending f σ)) as [[g|e| |] σ2];
      intros [= <- <-].
    cbn [cache cache_set]. by rewrite lookup_insert_eq.
Qed.

(** Once [f] has an entry, nothing that runs changes it or calls [f]. *)
Lemma entry_is_final factories fuel {A} (p : prog A) σ o σ' f guard :
  cache σ !! f = Some guard →
  exec factories fuel p σ = (o, σ') →
  cache σ' !! f = Some guard
  ∧ invocations f (trace σ') = invocations f (trace σ).
Proof.
  intros Hcache Hrun. apply exec_evolves in Hrun.
  destruct Hrun as [_ _ Hc Hb]. specialize (Hb f).
  pose proof (Hc _ _ Hcache) as Hcache'. split; [done|].
  rewrite (cached_Some _ _ _ Hcache), (cached_Some _ _ _ Hcache') in Hb. lia.
Qed.



(** C8. When the factory throws, [resolve] throws the same failure, and the
    entry of the factory stays the thunk created for it.  Whatever runs
    afterwards, resolving the factory returns that thunk and does not call
    the factory again, and the thunk reports the empty diagnostic for every
    value. *)
Theorem C8_failed_factory_leaves_the_deferred_guard
    factories fuel f σ e σ2 :
  cache σ !! f = None →
  exec factories fuel (factories f) (pending f σ) = (Thrown e, σ2) →
  exec factories (S fuel) (Resolve (FactoryRef f) Ret) σ = (Thrown e, σ2)
  ∧ cache σ2 !! f = Some (length (heap σ))
  ∧ ∀ fuel' A (p : prog A) o σ3,
      exec factories fuel' p σ2 = (o, σ3) →
      (∀ fuel'', exec factories fuel'' (Resolve (FactoryRef f) Ret) σ3
                 = (Returned (length (heap σ)), σ3))
      ∧ invocations f (trace σ3) = invocations f (trace σ2)
      ∧ ∀ n v, call (S n) σ3 (length (heap σ)) v = Some "".
Proof.
  intros Hnone Hthrow.
  pose proof (exec_evolves _ _ _ _ _ _ Hthrow) as Hev.
  destruct (pending_evolves _ _ _ Hnone Hev) as (_ & _ & Hthunk & Hcache & _).
  split; [|split; [done|]].
  - rewrite exec_resolve_factory, (materialize_fresh _ _ _ Hnone).
    change (construct factories (S fuel) f (pending f σ))
      with (exec factories fuel (factories f) (pending f σ)).
    by rewrite Hthrow.
  - intros fuel' A p o σ3 Hlater.
    destruct (entry_is_final _ _ _ _ _ _ _ _ Hcache Hlater) as [Hcache3 Hinv].
    split; [|split; [done|]].
    + intros fuel''. by apply exec_resolve_cached.
    + intros n v. apply exec_evolves in Hlater.
      rewrite (call_thunk _ _ _ f).
      * rewrite Hcache3. by destruct (decide _).
      * eapply prefix_lookup_Some; [exact Hthunk|]. apply Hlater.
Qed.

Lemma C8_witness :
  exec sample 3 (Resolve (FactoryRef 7) Ret) initial
  = (Thrown "failed", (exec sample 2 (sample 7) (pending 7 initial)).2)
  ∧ cache (exec sample 2 (sample 7) (pending 7 initial)).2 !! 7 = Some 0.
Proof.
  pose proof (C8_failed_factory_leaves_the_deferred_guard sample 2 7 initial
                "failed" (exec sample 2 (sample 7) (pending 7 initial)).2
                eq_refl eq_refl) as (Hthrows & Hentry & _).
  exact (conj Hthrows Hentry).
Defined.

(** ** Guard results over time *)

Lemma thunks_cached_initial : thunks_cached initial.
Proof. intros t key Ht. by destruct t. Qed.

Lemma thunks_cached_cache_set key guard σ :
  thunks_cached σ → thunks_cached (cache_set key guard σ).
Proof.
  intros Hwf t key' Ht. cbn [cache cache_set].
  destruct (decide (key = key')) as [->|Hne].
  - rewrite lookup_insert_eq. by eexists.
  - rewrite lookup_insert_ne by done. by eapply Hwf.
Qed.

Lemma thunks_cached_closure parameters body σ :
  thunks_cached σ → thunks_cached (allocate (Lambda parameters body) σ).
Proof.
  intros Hwf t key. cbn [heap cache allocate]. intros Ht.
  apply lookup_app_Some in Ht as [Ht|[_ Ht]]; [by eapply Hwf|].
  by destruct (t - length (heap σ)) as [|[|]].
Qed.

Lemma thunks_cached_pending f σ :
  thunks_cached σ → thunks_cached (pending f σ).
Proof.
  intros Hwf t key. unfold pending. cbn [heap cache record cache_set allocate].
  intros Ht. apply lookup_app_Some in Ht as [Ht|[_ Ht]].
  - destruct (decide (f = key)) as [->|Hne].
    + rewrite lookup_insert_eq. by eexists.
    + rewrite lookup_insert_ne by done. by eapply Hwf.
  - destruct (t - length (heap σ)) as [|[|]]; try done.
    injection Ht as ->. rewrite lookup_insert_eq. by eexists.
Qed.

Section interp_thunks_cached.

Context (construct : fref → state → outcome gref * state) (depth : nat).
Hypothesis construct_thunks_cached :
  ∀ f σ o σ', construct f σ = (o, σ') → thunks_cached σ → thunks_cached σ'.

Lemma materialize_thunks_cached f σ o σ' :
  materialize construct f σ = (o, σ') → thunks_cached σ → thunks_cached σ'.
Proof.
  intros Hrun Hwf. destruct (cache σ !! f) as [c|] eqn:Hcache.
  - rewrite (materialize_cached _ _ _ _ Hcache) in Hrun. by injection Hrun as _ <-.
  - rewrite (materialize_fresh _ _ _ Hcache) in Hrun.
    destruct (construct f (pending f σ)) as [o2 σ2] eqn:Hbody.
    apply construct_thunks_cached in Hbody; [|by apply thunks_cached_pending].
    destruct o2 as [g|e| |]; injection Hrun as _ <-; try done.
    by apply thunks_cached_cache_set.
Qed.

Lemma interp_thunks_cached {A} (p : prog A) σ o σ' :
  interp construct depth p σ = (o, σ') → thunks_cached σ → thunks_cached σ'.
Proof.
  revert σ. induction p as [a|e|source k IH|parameters body k IH|guard v k IH];
    intros σ; simpl.
  - by intros [= _ <-].
  - by intros [= _ <-].
  - destruct (resolve construct source σ) as [o1 σ1] eqn:Hres.
    intros Hk Hwf. assert (thunks_cached σ1) as Hwf1.
    { destruct source as [g|f]; [|by eapply materialize_thunks_cached].
      by apply (resolve_guard construct) in Hres as [-> _]. }
    destruct o1 as [g|e| |]; [by eapply IH|by injection Hk as _ <-..].
  - intros Hk Hwf. eapply IH; [exact Hk|]. by apply thunks_cached_closure.
  - destruct (call depth σ guard v) as [r|]; [|by intros [= _ <-]].
    intros Hk Hwf. eapply IH; [exact Hk|]. exact Hwf.
Qed.

End interp_thunks_cached.

Lemma construct_thunks_cached factories fuel f σ o σ' :
  construct factories fuel f σ = (o, σ') → thunks_cached σ → thunks_cached σ'.
Proof.
  revert f σ o σ'. induction fuel as [|fuel IH]; intros f σ o σ'; simpl.
  - by intros [= _ <-].
  - by apply interp_thunks_cached.
Qed.

Lemma exec_thunks_cached factories fuel {A} (p : prog A) σ o σ' :
  exec factories fuel p σ = (o, σ') → thunks_cached σ → thunks_cached σ'.
Proof. apply interp_thunks_cached, construct_thunks_cached. Qed.

Lemma eval_mono (invoke invoke' : gref → value → option string) c result :
  (∀ g v r, invoke g v = Some r → invoke' g v = Some r) →
  eval invoke c = Some result → eval invoke' c = Some result.
Proof.
  intros Hle. induction c as [d|g v k IH]; simpl; [done|].
  destruct (invoke g v) as [r|] eqn:Hr; [|done].
  rewrite (Hle _ _ _ Hr). apply IH.
Qed.

(** A guard keeps its result when the state evolves. *)
Lemma call_evolves fuel σ σ' guard v result :
  thunks_cached σ → evolves σ σ' →
  call fuel σ guard v = Some result → call fuel σ' guard v = Some result.
Proof.
  intros Hwf Hev. revert guard v result.
  induction fuel as [|fuel IH]; intros guard v result; [done|].
  cbn [call]. destruct (heap σ !! guard) as [fn|] eqn:Hfn; [|done].
  rewrite (prefix_lookup_Some _ _ _ _ Hfn (evolves_heap _ _ Hev)).
  destruct fn as [key|body].
  - unfold thunk. destruct (Hwf _ _ Hfn) as [c Hc].
    rewrite Hc, (evolves_cache _ _ Hev _ _ Hc).
    destruct (decide (c ≠ guard)); [apply IH|done].
  - apply eval_mono, IH.
Qed.

(** C9, as the code has it.  A guard applied to a value returns the same
    diagnostic before and after any program that runs to its end in between
    (resolving sources, creating guards, applying guards): such a run adds
    entries to the cache and never changes one.  The claim fails only across
    the end of a construction that was pending at the first application,
    when the entry of the factory changes from the thunk to the guard. *)
Theorem C9_guard_results_survive_later_runs
    factories fuel {A} (p : prog A) σ o σ' n guard v result :
  thunks_cached σ →
  exec factories fuel p σ = (o, σ') →
  call n σ guard v = Some result →
  call n σ' guard v = Some result.
Proof.
  intros Hwf Hrun. apply call_evolves; [done|]. by eapply exec_evolves.
Qed.

Lemma C9_witness :
  call 9 (exec sample 3 (Resolve (FactoryRef aTree) Ret) initial).2
       4 (VArr [VNum 1; VArr [VStr "x"]])
  = Some "unexpected <array> value, expected <number> or <list>"
  ∧ call 9 (exec sample 3 (Resolve (FactoryRef 3) Ret)
              (exec sample 3 (Resolve (FactoryRef aTree) Ret) initial).2).2
         4 (VArr [VNum 1; VArr [VStr "x"]])
    = Some "unexpected <array> value, expected <number> or <list>".
Proof.
  assert (Hfirst :
    call 9 (exec sample 3 (Resolve (FactoryRef aTree) Ret) initial).2
         4 (VArr [VNum 1; VArr [VStr "x"]])
    = Some "unexpected <array> value, expected <number> or <list>")
    by (vm_compute; reflexivity).
  split; [exact Hfirst|].
  apply (C9_guard_results_survive_later_runs sample 3
           (Resolve (FactoryRef 3) Ret)
           (exec sample 3 (Resolve (FactoryRef aTree) Ret) initial).2
           (exec sample 3 (Resolve (FactoryRef 3) Ret)
              (exec sample 3 (Resolve (FactoryRef aTree) Ret) initial).2).1).
  - eapply (exec_thunks_cached sample 3 (Resolve (FactoryRef aTree) Ret) initial
              (exec sample 3 (Resolve (FactoryRef aTree) Ret) initial).1).
    + apply surjective_pairing.
    + apply thunks_cached_initial.
  - apply surjective_pairing.
  - exact Hfirst.
Defined.

(** C9 as stated fails: factory 3 of [sample] builds a list guard over
    itself and applies it to [[42]] before it returns.  The element guard is
    the thunk, which accepts 42 while the factory runs and rejects it once
    the entry is the list guard. *)
Lemma C9_counterexample : ¬ deterministic_across_calls.
Proof.
  intros Hdet.
  pose (p := Resolve (FactoryRef 3)
               (λ guard, Invoke guard (VArr [VNum 42]) Ret) : prog string).
  pose (run := exec sample 5 p initial).
  assert (Htrace : trace run.2
                   = [Installed 3 0; Invoked 3;
                      Called 1 (VArr [VNum 42]) "";
                      Installed 3 1;
                      Called 1 (VArr [VNum 42])
                        "[0]: illegal <number> value, expected <array>"])
    by (vm_compute; reflexivity).
  assert (Hsame : "" = "[0]: illegal <number> value, expected <array>").
  { apply (Hdet sample 5 p run.1 run.2 1 (VArr [VNum 42])).
    - apply surjective_pairing.
    - rewrite Htrace. apply list_elem_of_lookup. by exists 2.
    - rewrite Htrace. apply list_elem_of_lookup. by exists 4. }
  discriminate Hsame.
Qed.

(** ** Running programs and guards *)

Lemma interp_bind construct depth {A B} (p : prog A) (f : A → prog B) σ :
  interp construct depth (p ≫= f) σ
  = match interp construct depth p σ with
    | (Returned a, σ') => interp construct depth (f a) σ'
    | (Thrown e, σ') => (Thrown e, σ')
    | (Exhausted, σ') => (Exhausted, σ')
    | (NotAGuard, σ') => (NotAGuard, σ')
    end.
Proof.
  revert σ. unfold mbind, prog_bind.
  induction p as [a|e|source k IH|parameters body k IH|guard v k IH]; intros σ; simpl;
    try done.
  - destruct (resolve construct source σ) as [[g|e| |] σ']; auto.
  - destruct (call depth σ guard v) as [r|]; auto.
Qed.

Lemma exec_bind factories fuel {A B} (p : prog A) (f : A → prog B) σ :
  exec factories fuel (p ≫= f) σ
  = match exec factories fuel p σ with
    | (Returned a, σ') => exec factories fuel (f a) σ'
    | (Thrown e, σ') => (Thrown e, σ')
    | (Exhausted, σ') => (Exhausted, σ')
    | (NotAGuard, σ') => (NotAGuard, σ')
    end.
Proof. apply interp_bind. Qed.

Lemma exec_resolve_then factories fuel {A} source (k : gref → prog A) σ guard σ1 :
  exec factories fuel (Resolve source Ret) σ = (Returned guard, σ1) →
  exec factories fuel (Resolve source k) σ = exec factories fuel (k guard) σ1.
Proof.
  unfold exec. simpl.
  destruct (resolve (construct factories fuel) source σ) as [[g|e| |] σ'];
    by intros [= <- <-].
Qed.



Lemma call_lambda fuel σ guard parameters body v :
  heap σ !! guard = Some (Lambda parameters body) →
  call (S fuel) σ guard v = eval (call fuel σ) (body v).
Proof. intros Hg. cbn [call]. by rewrite Hg. Qed.

Lemma exec_resolve_each factories fuel σ sources guards σ1 :
  resolved_in_order factories fuel σ sources guards σ1 →
  exec factories fuel (resolve_each sources) σ = (Returned guards, σ1).
Proof.
  induction 1 as [σ|σ source sources guard guards σ1 σ2 Hfirst _ IH]; [done|].
  cbn [resolve_each]. rewrite (exec_resolve_then _ _ _ _ _ _ _ Hfirst).
  by rewrite exec_bind, IH.
Qed.


(** ** Arrays *)

Section anArray_loop.

Context (invoke : gref → value → option string) (guard : gref).

Lemma anArray_loop_pass index items :
  Forall (λ x, invoke guard x = Some "") items →
  eval invoke (anArray_loop guard index items) = Some ""
  ∧ applied invoke (anArray_loop guard index items) = map (pair guard) items.
Proof.
  intros Hall. revert index.
  induction Hall as [|x items Hx _ IH]; intros index; simpl; [done|].
  rewrite Hx. simpl. destruct (IH (S index)) as [-> ->]. done.
Qed.

Lemma anArray_loop_fail index passed x rest result :
  Forall (λ y, invoke guard y = Some "") passed →
  invoke guard x = Some result → result ≠ "" →
  eval invoke (anArray_loop guard index (passed ++ x :: rest))
  = Some ("[" +:+ pretty (index + length passed) +:+ "]: " +:+ result)
  ∧ applied invoke (anArray_loop guard index (passed ++ x :: rest))
    = map (pair guard) (passed ++ [x]).
Proof.
  intros Hall Hx Hne. revert index.
  induction Hall as [|y passed Hy _ IH]; intros index; simpl.
  - rewrite Hx. destruct (decide (result = "")); [done|].
    by rewrite Nat.add_0_r.
  - rewrite Hy. simpl. destruct (IH (S index)) as [-> ->].
    by rewrite Nat.add_succ_r.
Qed.

Lemma anArray_loop_accepts index items :
  eval invoke (anArray_loop guard index items) = Some "" →
  Forall (λ x, invoke guard x = Some "") items.
Proof.
  revert index. induction items as [|x items IH]; intros index; simpl; [done|].
  destruct (invoke guard x) as [result|] eqn:Hx; [|done].
  destruct (decide (result = "")) as [->|Hne]; [|done].
  intros Hrest. constructor; [done|]. by eapply IH.
Qed.

End anArray_loop.

(** C7. [anArray(element)] resolves the element source and returns a new
    guard over the resolved guard.  That guard rejects a value that is not an
    array as [illegal <type> value, expected <array>]; on an array it applies
    the element guard to the elements from index 0 upwards: at the first
    element that fails it reports [[index]: diagnostic] and has applied the
    guard to the elements up to that one only, and when none fails it has
    applied it to all of them in order; it reports the empty diagnostic
    exactly when the value is an array whose elements all pass. *)
Theorem C7_anArray_checks_elements_in_order
    factories fuel element σ guard σ1 :
  exec factories fuel (Resolve element Ret) σ = (Returned guard, σ1) →
  exec factories fuel (anArray (Some element)) σ
    = (Returned (length (heap σ1)),
       allocate (Lambda 1 (anArray_guard (Some guard))) σ1)
  ∧ ∀ σ' array n,
      heap σ' !! array = Some (Lambda 1 (anArray_guard (Some guard))) →
      (∀ v, (∀ items, v ≠ VArr items) →
            call (S n) σ' array v
            = Some ("illegal <" +:+ type v +:+ "> value, expected <array>"))
      ∧ (∀ passed x rest result,
            Forall (λ y, call n σ' guard y = Some "") passed →
            call n σ' guard x = Some result → result ≠ "" →
            call (S n) σ' array (VArr (passed ++ x :: rest))
            = Some ("[" +:+ pretty (length passed) +:+ "]: " +:+ result)
            ∧ applied (call n σ')
                (anArray_guard (Some guard) (VArr (passed ++ x :: rest)))
              = map (pair guard) (passed ++ [x]))
      ∧ (∀ items,
            Forall (λ x, call n σ' guard x = Some "") items →
            applied (call n σ') (anArray_guard (Some guard) (VArr items))
            = map (pair guard) items)
      ∧ (∀ v, call (S n) σ' array v = Some ""
              ↔ ∃ items, v = VArr items
                         ∧ Forall (λ x, call n σ' guard x = Some "") items).
Proof.
  intros Hresolve. split.
  - unfold anArray. rewrite exec_bind. cbn [resolve_optional].
    rewrite (exec_resolve_then _ _ _ _ _ _ _ Hresolve). done.
  - intros σ' array n Harray. split; [|split; [|split]].
    + intros v Hv. rewrite (call_lambda _ _ _ _ _ _ Harray).
      destruct v; try done. by destruct (Hv items).
    + intros passed x rest result Hpassed Hx Hne.
      rewrite (call_lambda _ _ _ _ _ _ Harray). cbn [anArray_guard].
      by apply (anArray_loop_fail _ _ 0).
    + intros items Hall. cbn [anArray_guard]. by apply anArray_loop_pass.
    + intros v. rewrite (call_lambda _ _ _ _ _ _ Harray). split.
      * destruct v; try done. cbn [anArray_guard]. intros Hloop.
        exists items. split; [done|]. by eapply anArray_loop_accepts.
      * intros (items & -> & Hall). cbn [anArray_guard].
        by apply anArray_loop_pass.
Qed.

Lemma C7_witness :
  exec sample 3 (anArray (Some (FactoryRef 0))) initial
  = (Returned 2,
     allocate (Lambda 1 (anArray_guard (Some 1)))
       (exec sample 3 (Resolve (FactoryRef 0) Ret) initial).2)
  ∧ call 2 (exec sample 3 (anArray (Some (FactoryRef 0))) initial).2 2
         (VArr ([VNum 1] ++ VStr "x" :: [VNull]))
    = Some "[1]: illegal <string> value, expected <number>".
Proof.
  pose proof (C7_anArray_checks_elements_in_order sample 3 (FactoryRef 0)
                initial 1 (exec sample 3 (Resolve (FactoryRef 0) Ret) initial).2
                eq_refl) as [Hbuild Hguard].
  split; [exact Hbuild|].
  destruct (Hguard (exec sample 3 (anArray (Some (FactoryRef 0))) initial).2
              2 1 eq_refl) as (_ & Hfail & _ & _).
  apply (Hfail [VNum 1] (VStr "x") [VNull]
           "illegal <string> value, expected <number>").
  - repeat constructor.
  - reflexivity.
  - discriminate.
Defined.

(** ** Conjunction *)

Section all_loop.

Context (invoke : gref → value → option string) (v : value).

Lemma all_guard_eval guards :
  eval invoke (all_guard guards v) = eval invoke (all_loop guards v).
Proof.
  destruct guards as [|first [|second [|third rest]]]; simpl; try done.
  - destruct (invoke first v) as [r|]; [|done].
    by destruct (decide (r = "")) as [->|].
  - destruct (invoke first v) as [r|]; [|done].
    destruct (decide (r = "")); [|done]. simpl.
    destruct (invoke second v) as [r'|]; [|done].
    by destruct (decide (r' = "")) as [->|].
Qed.

Lemma all_guard_applied guards :
  applied invoke (all_guard guards v) = applied invoke (all_loop guards v).
Proof.
  destruct guards as [|first [|second [|third rest]]]; simpl; try done.
  - destruct (invoke first v) as [r|]; [|done].
    by destruct (decide (r = "")) as [->|].
  - destruct (invoke first v) as [r|]; [|done].
    destruct (decide (r = "")); [|done]. simpl.
    destruct (invoke second v) as [r'|]; [|done].
    by destruct (decide (r' = "")) as [->|].
Qed.

Lemma all_loop_fail passed guard rest result :
  Forall (λ g, invoke g v = Some "") passed →
  invoke guard v = Some result → result ≠ "" →
  eval invoke (all_loop (passed ++ guard :: rest) v) = Some result
  ∧ applied invoke (all_loop (passed ++ guard :: rest) v)
    = map (λ g, (g, v)) (passed ++ [guard]).
Proof.
  intros Hall Hg Hne. induction Hall as [|g passed Hpass _ IH]; simpl.
  - rewrite Hg. by destruct (decide (result = "")).
  - rewrite Hpass. simpl. by destruct IH as [-> ->].
Qed.

Lemma all_loop_pass guards :
  Forall (λ g, invoke g v = Some "") guards →
  eval invoke (all_loop guards v) = Some ""
  ∧ applied invoke (all_loop guards v) = map (λ g, (g, v)) guards.
Proof.
  induction 1 as [|g guards Hpass _ IH]; simpl; [done|].
  rewrite Hpass. simpl. by destruct IH as [-> ->].
Qed.

Lemma all_loop_accepts guards :
  eval invoke (all_loop guards v) = Some "" →
  Forall (λ g, invoke g v = Some "") guards.
Proof.
  induction guards as [|g guards IH]; simpl; [done|].
  destruct (invoke g v) as [result|] eqn:Hg; [|done].
  destruct (decide (result = "")) as [->|Hne]; [|by intros [= ->]].
  intros Hrest. constructor; [done|]. by apply IH.
Qed.

End all_loop.

(** C6. [all(sources)] resolves the sources when it is called, one after the
    other in the caller's order, and returns a new guard over the resolved
    guards in that order.  That guard applies them in order to the value and
    reports the first diagnostic that is not empty, having applied none of
    the guards after it; it reports the empty diagnostic exactly when every
    guard does, and so always when there is no source. *)
Theorem C6_all_reports_the_first_failure
    factories fuel sources σ guards σ1 :
  resolved_in_order factories fuel σ sources guards σ1 →
  exec factories fuel (all sources) σ
    = (Returned (length (heap σ1)),
       allocate (Lambda (all_parameters guards) (all_guard guards)) σ1)
  ∧ ∀ σ' conjunction n v,
      heap σ' !! conjunction
        = Some (Lambda (all_parameters guards) (all_guard guards)) →
      (∀ passed guard rest result,
          guards = passed ++ guard :: rest →
          Forall (λ g, call n σ' g v = Some "") passed →
          call n σ' guard v = Some result → result ≠ "" →
          call (S n) σ' conjunction v = Some result
          ∧ applied (call n σ') (all_guard guards v)
            = map (λ g, (g, v)) (passed ++ [guard]))
      ∧ (call (S n) σ' conjunction v = Some ""
         ↔ Forall (λ g, call n σ' g v = Some "") guards)
      ∧ (Forall (λ g, call n σ' g v = Some "") guards →
         applied (call n σ') (all_guard guards v) = map (λ g, (g, v)) guards)
      ∧ (sources = [] → call (S n) σ' conjunction v = Some "").
Proof.
  intros Hresolved. split.
  - unfold all. rewrite exec_bind.
    by rewrite (exec_resolve_each _ _ _ _ _ _ Hresolved).
  - intros σ' conjunction n v Hheap.
    rewrite (call_lambda _ _ _ _ _ _ Hheap), all_guard_eval, all_guard_applied.
    split; [|split; [|split]].
    + intros passed guard rest result -> Hpassed Hguard Hne.
      by apply all_loop_fail.
    + split; [apply all_loop_accepts|]. intros Hall. by apply all_loop_pass.
    + intros Hall. by apply all_loop_pass.
    + intros ->. by inversion Hresolved.
Qed.

Lemma C6_witness :
  exec sample 3 (all [FactoryRef 0; FactoryRef 1]) initial
  = (Returned 4,
     allocate (Lambda 1 (all_guard [1; 3]))
       (exec sample 3 (resolve_each [FactoryRef 0; FactoryRef 1]) initial).2)
  ∧ call 2 (exec sample 3 (all [FactoryRef 0; FactoryRef 1]) initial).2 4
         (VBool true)
    = Some "illegal <boolean> value, expected <number>".
Proof.
  assert (Hresolved :
    resolved_in_order sample 3 initial [FactoryRef 0; FactoryRef 1] [1; 3]
      (exec sample 3 (resolve_each [FactoryRef 0; FactoryRef 1]) initial).2).
  { eapply resolved_cons; [reflexivity|].
    eapply resolved_cons; [reflexivity|]. apply resolved_nil. }
  pose proof (C6_all_reports_the_first_failure sample 3 _ _ _ _ Hresolved)
    as [Hbuild Hguard].
  split; [exact Hbuild|].
  destruct (Hguard (exec sample 3 (all [FactoryRef 0; FactoryRef 1]) initial).2
              4 1 (VBool true) eq_refl) as (Hfail & _).
  apply (Hfail [] 1 [3] "illegal <boolean> value, expected <number>");
    [reflexivity|constructor|reflexivity|discriminate].
Defined.

(** ** Object schemas *)

Section schema_loops.

Context (invoke : gref → value → option string) (v : list (string * value)).


Lemma schema_loop_pass guards next :
  Forall (λ made : string * nat, invoke made.2 (get v made.1) = Some "") guards →
  eval invoke (schema_loop guards v next) = eval invoke next
  ∧ applied invoke (schema_loop guards v next)
    = map (λ made : string * nat, (made.2, get v made.1)) guards
      ++ applied invoke next.
Proof.
  induction 1 as [|[k g] guards Hpass _ IH]; simpl; [done|].
  simpl in Hpass. rewrite Hpass. simpl. by destruct IH as [-> ->].
Qed.



Lemma schema_rest_pass (keys : gset string) extra own_keys :
  Forall (λ k, k ∈ keys
               ∨ ∃ e, extra = Some e ∧ invoke e (get v k) = Some "") own_keys →
  eval invoke (schema_rest keys extra v own_keys) = Some "".
Proof.
  induction 1 as [|k own_keys Hk _ IH]; simpl; [done|].
  destruct (decide (k ∈ keys)) as [Hin|Hout]; [done|].
  destruct Hk as [?|(e & -> & Hpass)]; [done|]. simpl. by rewrite Hpass.
Qed.

End schema_loops.







(** ** Disjunction *)

Section any_loop.

Context (invoke : gref → value → option string) (v : value).

Lemma any_loop_pass failed guard rest failure :
  Forall (λ g, ∃ r, invoke g v = Some r ∧ r ≠ "") failed →
  invoke guard v = Some "" →
  eval invoke (any_loop (failed ++ guard :: rest) v failure) = Some ""
  ∧ applied invoke (any_loop (failed ++ guard :: rest) v failure)
    = map (λ g, (g, v)) (failed ++ [guard]).
Proof.
  intros Hall Hg. induction Hall as [|g failed (r & Hr & Hne) _ IH]; simpl.
  - by rewrite Hg.
  - rewrite Hr. destruct (decide (r = "")); [done|]. by destruct IH as [-> ->].
Qed.

Lemma any_loop_fail guards failure :
  Forall (λ g, ∃ r, invoke g v = Some r ∧ r ≠ "") guards →
  eval invoke (any_loop guards v failure) = Some failure.
Proof.
  induction 1 as [|g guards (r & Hr & Hne) _ IH]; simpl; [done|].
  rewrite Hr. by destruct (decide (r = "")).
Qed.

Lemma any_loop_accepts guards failure :
  failure ≠ "" →
  eval invoke (any_loop guards v failure) = Some "" →
  Exists (λ g, invoke g v = Some "") guards.
Proof.
  intros Hfailure. induction guards as [|g guards IH]; simpl.
  - by intros [= ->].
  - destruct (invoke g v) as [r|] eqn:Hr; [|done].
    destruct (decide (r = "")) as [->|Hne]; [by left|].
    intros Hrest. right. by apply IH.
Qed.

(** The guard of [any] is the loop, whatever the number of entries. *)
Lemma any_guard_eval entries :
  eval invoke (any_guard entries v)
  = eval invoke
      (any_loop (map snd entries) v
         (match entries with
          | [] => "unexpected <" +:+ type v +:+ "> value"
          | _ => error (expected (names entries)) v
          end)).
Proof.
  by destruct entries as [|[n1 g1] [|[n2 g2] [|[n3 g3] rest]]].
Qed.

End any_loop.

(** The names joined: two with "or", more with commas and a final "or". *)
Lemma expected_joined first others final :
  expected (first :: others ++ [final])
  = String.concat ", " (first :: others) +:+ " or " +:+ final.
Proof.
  unfold expected.
  replace (removelast (first :: others ++ [final])) with (first :: others)
    by (by rewrite app_comm_cons, removelast_last).
  replace (last (first :: others ++ [final])) with (Some final)
    by (by rewrite app_comm_cons, last_snoc).
  by destruct others.
Qed.

(** A name that [types] lists is mapped to the lowercase type name. *)
Lemma label_known name lowercase :
  own types (strip name) = Some lowercase → label name = lowercase.
Proof.
  unfold label, get. intros Hknown. rewrite Hknown.
  unfold types in Hknown. simpl in Hknown.
  repeat (destruct (decide _) in Hknown; [by injection Hknown as <-|]).
  done.
Qed.

(** Any other name is kept as it is, unless [Object.prototype] has it. *)
Lemma label_unknown name :
  own types (strip name) = None →
  own object_prototype (strip name) = None →
  label name = VStr (strip name).
Proof. unfold label, get. by intros -> ->. Qed.

(** A name that [Object.prototype] has is labelled with the inherited
    member, not with the name. *)
Lemma label_inherited name member :
  own types (strip name) = None →
  own object_prototype (strip name) = Some member →
  label name = member.
Proof.
  unfold label, get. intros -> Hmember. rewrite Hmember.
  unfold object_prototype in Hmember. simpl in Hmember.
  repeat (destruct (decide _) in Hmember; [by injection Hmember as <-|]).
  done.
Qed.

(** X17. What [any] does, with the labels the code computes: it resolves
    the sources in order; its guard accepts as soon as one guard accepts,
    accepts only if one does, and when all fail reports
    [unexpected <type> value], followed by [, expected] and the labels when
    there are sources. *)
Lemma any_guard_behaviour factories fuel sources σ :
  ∀ entries σ1,
    exec factories fuel (resolve_entries sources) σ = (Returned entries, σ1) →
    exec factories fuel (any sources) σ
      = (Returned (length (heap σ1)),
         allocate (Lambda 1 (any_guard entries)) σ1)
    ∧ ∀ σ' disjunction n v,
        heap σ' !! disjunction = Some (Lambda 1 (any_guard entries)) →
        (∀ failed guard rest,
            map snd entries = failed ++ guard :: rest →
            Forall (λ g, ∃ r, call n σ' g v = Some r ∧ r ≠ "") failed →
            call n σ' guard v = Some "" →
            call (S n) σ' disjunction v = Some "")
        ∧ (call (S n) σ' disjunction v = Some "" →
           Exists (λ g, call n σ' g v = Some "") (map snd entries))
        ∧ (Forall (λ g, ∃ r, call n σ' g v = Some r ∧ r ≠ "")
             (map snd entries) →
           call (S n) σ' disjunction v
           = Some (match entries with
                   | [] => "unexpected <" +:+ type v +:+ "> value"
                   | _ => "unexpected <" +:+ type v +:+ "> value, expected "
                          +:+ expected (names entries)
                   end)).
Proof.
  intros entries σ1 Hresolved. split.
  - unfold any. rewrite exec_bind. by rewrite Hresolved.
  - intros σ' disjunction n v Hheap.
    rewrite (call_lambda _ _ _ _ _ _ Hheap), any_guard_eval. split; [|split].
    + intros failed guard rest -> Hfailed Hguard. by apply any_loop_pass.
    + apply any_loop_accepts. by destruct entries.
    + intros Hall. rewrite any_loop_fail by done. by destruct entries.
Qed.

(** C5 fails on the code for a name that [Object.prototype] defines:
    [any({ aNumber, constructor: aFunction })] applied to [true].  [label]
    reads [types["constructor"]], which is the inherited [Object] function,
    so the diagnostic shows that function where the claim has
    [<constructor>]. *)
Theorem C5_inherited_name_is_not_the_label :
  (exec sample 3
     (guard ← any [("aNumber", FactoryRef 0); ("constructor", FactoryRef 1)];
      Invoke guard (VBool true) Ret) initial).1
  = Returned "unexpected <boolean> value, expected <number> or <function Object() { [native code] }>"
  ∧ label "constructor" ≠ VStr "constructor"
  ∧ label "aNumber" = VStr "number"
  ∧ label "anArray" = VStr "Array"
  ∧ label "list" = VStr "list".
Proof. repeat split; by vm_compute. Qed.

(** ** The validating cast *)

Lemma freeze_isFrozen o : isFrozen (freeze o).
Proof.
  split; [done|]. intros k d. cbn [properties freeze].
  rewrite lookup_fmap. destruct (properties o !! k); [|done].
  by intros [= <-].
Qed.

(** Marking a new or an unmarked extensible object succeeds. *)
Lemma define_mark_unmarked guarding o :
  is_extensible o = true →
  properties o !! Guarded = None →
  define_own_property o Guarded (mark guarding)
  = Some (Object (proto o) true
            (<[Guarded := Descriptor (JFun guarding) false false true]>
               (properties o))).
Proof. unfold define_own_property. by intros -> ->. Qed.

Lemma extensible_unmarked o : properties (extensible o) !! Guarded = None.
Proof.
  cbn [properties extensible]. apply map_lookup_filter_None. right.
  intros d _ Hne. by apply Hne.
Qed.

Lemma extensible_other o k :
  k ≠ Guarded → properties (extensible o) !! k = properties o !! k.
Proof.
  intros Hne. cbn [properties extensible].
  destruct (properties o !! k) as [d|] eqn:Hk.
  - by apply map_lookup_filter_Some.
  - apply map_lookup_filter_None. by left.
Qed.

Lemma branded_mark guarding p properties' :
  properties (branded guarding p properties') !! Guarded
  = Some (Descriptor (JFun guarding) false false false).
Proof.
  cbn [properties branded freeze]. by rewrite lookup_fmap, lookup_insert_eq.
Qed.

Lemma branded_other guarding p properties' k :
  k ≠ Guarded →
  properties (branded guarding p properties') !! k
  = frozen_descriptor <$> properties' !! k.
Proof.
  intros Hne. cbn [properties branded freeze].
  by rewrite lookup_fmap, lookup_insert_ne.
Qed.

Lemma brand_copy guarding h l o :
  h !! l = Some o → is_extensible o = false →
  brand guarding h l
  = (Returned (JObj (length h)),
     h ++ [branded guarding ObjectPrototype (properties (extensible o))]).
Proof.
  intros Hl Hext. unfold brand. rewrite Hl, Hext.
  rewrite (define_mark_unmarked guarding (extensible o) eq_refl
             (extensible_unmarked o)).
  f_equal. rewrite insert_app_r_alt by done. by rewrite Nat.sub_diag.
Qed.

Lemma brand_in_place guarding h l o :
  h !! l = Some o → is_extensible o = true →
  properties o !! Guarded = None →
  brand guarding h l
  = (Returned (JObj l), <[l := branded guarding (proto o) (properties o)]> h).
Proof.
  intros Hl Hext Hmark. unfold brand. rewrite Hl, Hext.
  by rewrite (define_mark_unmarked _ _ Hext Hmark).
Qed.

(** When the mark is not found and the guard accepts, [as] brands. *)
Lemma as_cast_validates apply a h l :
  get_property h (JObj l) Guarded ≠ JFun (guarding_of a) →
  apply (guard_of a) h (JObj l) = Some "" →
  as_cast apply a (JObj l) h = brand (guarding_of a) h l.
Proof.
  intros Hmark Haccept. unfold as_cast.
  rewrite bool_decide_eq_false_2 by done. by rewrite Haccept.
Qed.

(** C10. When [as(G)] validates a value that does not carry the mark of [G]
    and the guard accepts it: if the value is not extensible, the result is
    a new reference, to a plain object that has the own properties of the
    input but the mark key, with their values and enumerability, plus the
    mark of [G], and is frozen, and the input is as before; if the value is
    extensible and unmarked, the result is the input reference, and the
    input now has the mark of [G] and is frozen. *)
Theorem C10_as_brands_a_copy_when_the_value_is_not_extensible
    apply a h l o :
  h !! l = Some o →
  get_property h (JObj l) Guarded ≠ JFun (guarding_of a) →
  apply (guard_of a) h (JObj l) = Some "" →
  (is_extensible o = false →
   ∃ copy,
     as_cast apply a (JObj l) h = (Returned (JObj (length h)), h ++ [copy])
     ∧ JObj (length h) ≠ JObj l
     ∧ (h ++ [copy]) !! l = Some o
     ∧ (∀ l' o', h !! l' = Some o' → (h ++ [copy]) !! l' = Some o')
     ∧ proto copy = ObjectPrototype
     ∧ isFrozen copy
     ∧ properties copy !! Guarded
       = Some (Descriptor (JFun (guarding_of a)) false false false)
     ∧ ∀ k, k ≠ Guarded →
            properties copy !! k = frozen_descriptor <$> properties o !! k)
  ∧ (is_extensible o = true → properties o !! Guarded = None →
     ∃ marked,
       as_cast apply a (JObj l) h = (Returned (JObj l), <[l := marked]> h)
       ∧ (<[l := marked]> h) !! l = Some marked
       ∧ proto marked = proto o
       ∧ isFrozen marked
       ∧ properties marked !! Guarded
         = Some (Descriptor (JFun (guarding_of a)) false false false)
       ∧ ∀ k, k ≠ Guarded →
              properties marked !! k = frozen_descriptor <$> properties o !! k).
Proof.
  intros Hl Hmark Haccept.
  rewrite (as_cast_validates _ _ _ _ Hmark Haccept).
  pose proof (lookup_lt_Some _ _ _ Hl) as Hlt. split.
  - intros Hext.
    exists (branded (guarding_of a) ObjectPrototype (properties (extensible o))).
    split; [by apply brand_copy|]. split; [intros [= Heq]; lia|].
    split; [by apply lookup_app_l_Some|].
    split; [intros l' o' Hl'; by apply lookup_app_l_Some|].
    split; [done|]. split; [apply freeze_isFrozen|].
    split; [apply branded_mark|].
    intros k Hk. by rewrite branded_other, extensible_other.
  - intros Hext Hunmarked.
    exists (branded (guarding_of a) (proto o) (properties o)).
    split; [by apply brand_in_place|].
    split; [by apply list_lookup_insert_eq|].
    split; [done|]. split; [apply freeze_isFrozen|].
    split; [apply branded_mark|].
    intros k Hk. by apply branded_other.
Qed.

Lemma C10_witness :
  ∃ copy,
    as_cast accept (Assertion (FactoryRef 6) 1) (JObj 0) [alice]
    = (Returned (JObj 1), [alice] ++ [copy])
    ∧ ([alice] ++ [copy]) !! 0 = Some alice
    ∧ isFrozen copy
    ∧ properties copy !! KStr "name"
      = Some (Descriptor (JStr "Alice") false true false).
Proof.
  destruct (C10_as_brands_a_copy_when_the_value_is_not_extensible
              accept (Assertion (FactoryRef 6) 1) [alice] 0 alice)
    as [Hcopy _]; [reflexivity|discriminate|reflexivity|].
  destruct (Hcopy eq_refl)
    as (copy & Hcast & _ & Hinput & _ & _ & Hfrozen & _ & Hother).
  exists copy. split; [exact Hcast|]. split; [exact Hinput|].
  split; [exact Hfrozen|]. rewrite Hother by discriminate.
  vm_compute. reflexivity.
Defined.

(** ** Memoization and immutability *)

Lemma get_property_own h l o k d :
  h !! l = Some o → properties o !! k = Some d →
  get_property h (JObj l) k = desc_value d.
Proof.
  intros Hl Hk. unfold get_property.
  pose proof (lookup_lt_Some _ _ _ Hl) as Hlt.
  destruct (length h) as [|n]; [lia|]. cbn [find_property].
  by rewrite Hl, Hk.
Qed.

(** An object that has the mark of the guarding is returned as it is. *)
Lemma as_cast_memoized apply a h l o d :
  h !! l = Some o → properties o !! Guarded = Some d →
  desc_value d = JFun (guarding_of a) →
  as_cast apply a (JObj l) h = (Returned (JObj l), h).
Proof.
  intros Hl Hmark Hvalue. unfold as_cast.
  rewrite (get_property_own _ _ _ _ _ Hl Hmark), Hvalue.
  by rewrite bool_decide_eq_true_2.
Qed.

(** No attempt changes a frozen object. *)
Lemma frozen_is_immutable m h l o h' :
  h !! l = Some o → isFrozen o → attempt m h l = Some h' → h' = h.
Proof.
  intros Hl [Hext Hprops]. unfold attempt. rewrite Hl. cbn [mbind option_bind].
  assert (Hsame : ∀ o', Some o' = Some o → Some (<[l := o']> h) = Some h' → h' = h).
  { intros o' [= ->] [= <-]. by apply list_insert_id. }
  destruct m as [k x|k|k a|p].
  - unfold assign. destruct (properties o !! k) as [d|] eqn:Hk.
    + by rewrite (proj1 (Hprops _ _ Hk)).
    + by rewrite Hext, andb_false_r.
  - destruct (properties o !! k) as [d|] eqn:Hk.
    + by rewrite (proj2 (Hprops _ _ Hk)).
    + by apply Hsame.
  - unfold define_own_property.
    destruct (properties o !! k) as [d|] eqn:Hk; [|by rewrite Hext].
    destruct (Hprops _ _ Hk) as [Hw Hc].
    destruct (refused d a) eqn:Hrefused; [done|]. apply Hsame.
    unfold refused in Hrefused. rewrite Hw, Hc in Hrefused. simpl in Hrefused.
    apply orb_false_elim in Hrefused as [Hrefused Hvalue].
    apply orb_false_elim in Hrefused as [Hconfigurable Henumerable].
    apply orb_false_elim in Hvalue as [Hwritable Hvalue].
    apply bool_decide_eq_false in Hconfigurable, Henumerable, Hwritable, Hvalue.
    destruct o as [p ext props], d as [x w e c]. simpl in *. subst.
    do 2 f_equal. apply insert_id. rewrite Hk. do 2 f_equal.
    + destruct (attr_value a) as [y|]; [|done]. simpl.
      destruct (decide (y = x)) as [->|Hne]; [done|].
      destruct Hvalue. split; [by eexists|congruence].
    + by destruct (attr_writable a) as [[]|].
    + destruct (attr_enumerable a) as [e'|]; [|done]. simpl.
      destruct e, e'; try done; by destruct Henumerable.
    + by destruct (attr_configurable a) as [[]|].
  - rewrite Hext. simpl. destruct (decide (p = proto o)) as [->|Hne].
    + rewrite bool_decide_eq_true_2 by done. apply Hsame.
      destruct o. simpl in *. by subst.
    + by rewrite bool_decide_eq_false_2.
Qed.

(** X18. When [as(G)] has validated and branded a value, a second cast of
    the result returns the same reference without change, whatever the guard
    would say then, and the result is frozen: no attempt to change it
    succeeds. *)
Lemma as_cast_twice apply a h l o :
  h !! l = Some o →
  get_property h (JObj l) Guarded ≠ JFun (guarding_of a) →
  apply (guard_of a) h (JObj l) = Some "" →
  is_extensible o = false ∨ properties o !! Guarded = None →
  ∃ first h' o',
    as_cast apply a (JObj l) h = (Returned (JObj first), h')
    ∧ h' !! first = Some o'
    ∧ isFrozen o'
    ∧ (∀ apply', as_cast apply' a (JObj first) h' = (Returned (JObj first), h'))
    ∧ ∀ m h'', attempt m h' first = Some h'' → h'' = h'.
Proof.
  intros Hl Hmark Haccept Hcase.
  rewrite (as_cast_validates _ _ _ _ Hmark Haccept).
  pose proof (lookup_lt_Some _ _ _ Hl) as Hlt.
  destruct (is_extensible o) eqn:Hext.
  - destruct Hcase as [?|Hunmarked]; [done|].
    exists l, (<[l := branded (guarding_of a) (proto o) (properties o)]> h),
      (branded (guarding_of a) (proto o) (properties o)).
    assert (Hat : (<[l := branded (guarding_of a) (proto o) (properties o)]> h)
                  !! l = Some (branded (guarding_of a) (proto o) (properties o)))
      by (by apply list_lookup_insert_eq).
    split; [by apply brand_in_place|]. split; [done|].
    split; [apply freeze_isFrozen|]. split.
    + intros apply'. eapply as_cast_memoized; [exact Hat|apply branded_mark|done].
    + intros m h''. eapply frozen_is_immutable; [exact Hat|apply freeze_isFrozen].
  - exists (length h),
      (h ++ [branded (guarding_of a) ObjectPrototype (properties (extensible o))]),
      (branded (guarding_of a) ObjectPrototype (properties (extensible o))).
    assert (Hat : (h ++ [branded (guarding_of a) ObjectPrototype
                           (properties (extensible o))]) !! length h
                  = Some (branded (guarding_of a) ObjectPrototype
                            (properties (extensible o)))).
    { rewrite lookup_app_r by done. by rewrite Nat.sub_diag. }
    split; [by apply brand_copy|]. split; [done|].
    split; [apply freeze_isFrozen|]. split.
    + intros apply'. eapply as_cast_memoized; [exact Hat|apply branded_mark|done].
    + intros m h''. eapply frozen_is_immutable; [exact Hat|apply freeze_isFrozen].
Qed.

(** C3 fails on the code when the value inherits the mark.  [base] is
    [as(G)({})]; [derived 1] is [Object.create(base)] with an own [x = 1].
    [v[Guarded]] is read through the prototype, so [as(G)] returns the
    value at once, whatever the guard would say: [first] is the value
    itself, a second cast returns it again, but it is not frozen, and
    [first.x = 2] changes it. *)
Theorem C3_inherited_mark_leaves_the_value_mutable :
  as_cast accept (Assertion (FactoryRef 6) 1) (JObj 0)
    [Object ObjectPrototype true ∅]
  = (Returned (JObj 0), [base])
  ∧ (∀ apply, as_cast apply (Assertion (FactoryRef 6) 1) (JObj 1)
                [base; derived 1]
              = (Returned (JObj 1), [base; derived 1]))
  ∧ ¬ isFrozen (derived 1)
  ∧ attempt (Assign (KStr "x") (JNum 2)) [base; derived 1] 1
    = Some [base; derived 2]
  ∧ [base; derived 2] ≠ [base; derived 1].
Proof.
  split; [by vm_compute|]. split; [intros apply; by vm_compute|].
  split; [by intros [? _]|]. split; [by vm_compute|]. by vm_compute.
Qed.

(** ** The test suite of the repository, on the model *)

Example test_aNull :
  checking aNull VNull = Returned ""
  ∧ checking aNull VUndefined
    = Returned "illegal <undefined> value, expected <null>"
  ∧ checking aNull (VArr []) = Returned "illegal <array> value, expected <null>".
Proof. repeat split; by vm_compute. Qed.

Example test_anArray_without_element_guard :
  checking (anArray None) (VArr []) = Returned ""
  ∧ checking (anArray None) (VArr [VNum 1; VNum 2; VNum 3]) = Returned ""
  ∧ checking (anArray None) (VObj true [])
    = Returned "illegal <object> value, expected <array>".
Proof. repeat split; by vm_compute. Qed.

Example test_anArray_with_element_guard :
  checking (number ← aNumber; anArray (Some (GuardRef number)))
           (VArr [VNum 1; VNum 2; VNum 3]) = Returned ""
  ∧ checking (number ← aNumber; anArray (Some (GuardRef number)))
             (VArr [VStr "a"; VStr "b"])
    = Returned "[0]: illegal <string> value, expected <number>"
  ∧ checking (anArray (Some (FactoryRef 0))) (VArr [VNum 1; VStr "x"; VNum 3])
    = Returned "[1]: illegal <string> value, expected <number>".
Proof. repeat split; by vm_compute. Qed.

Example test_anObject_without_schema :
  checking (anObject None None) (VObj true []) = Returned ""
  ∧ checking (anObject None None) (VObj true [("a", VNum 1)]) = Returned ""
  ∧ checking (anObject None None) VNull
    = Returned "illegal <null> value, expected <object>"
  ∧ checking (anObject None None) (VObj false [])
    = Returned "illegal <object> value, expected <object>".
Proof. repeat split; by vm_compute. Qed.

Example test_anObject_with_schema :
  let schema := Schema [("name", Guarding (FactoryRef 1));
                        ("age", Guarding (FactoryRef 0))] in
  checking (anObject (Some schema) None)
           (person (Some (VStr "Alice")) (Some (VNum 30))) = Returned ""
  ∧ checking (anObject (Some schema) None)
             (person (Some (VNum 123)) (Some (VStr "thirty")))
    = Returned "name: illegal <number> value, expected <string>".
Proof. repeat split; by vm_compute. Qed.

Example test_anObject_literal :
  checking (anObject (Some (Schema circle)) None)
           (VObj true [("kind", VStr "circle"); ("radius", VNum 10)])
  = Returned ""
  ∧ checking (anObject (Some (Schema circle)) None)
             (VObj true [("kind", VStr "square"); ("radius", VNum 10)])
    = Returned "kind: unexpected <square> value, expected <circle>".
Proof. repeat split; by vm_compute. Qed.

Example test_anObject_closed :
  let schema := Schema [("name", Guarding (FactoryRef 1))] in
  checking (anObject (Some schema) None) (person (Some (VStr "Alice")) None)
  = Returned ""
  ∧ checking (anObject (Some schema) None)
             (person (Some (VStr "Alice")) (Some (VNum 30)))
    = Returned "age: unexpected property".
Proof. repeat split; by vm_compute. Qed.

Example test_anObject_open :
  let schema := Schema [("name", Guarding (FactoryRef 1))] in
  checking (anObject (Some schema) (Some (FactoryRef 0)))
           (person (Some (VStr "Alice")) (Some (VNum 30)))
  = Returned ""
  ∧ checking (anObject (Some schema) (Some (FactoryRef 0)))
             (person (Some (VStr "Alice")) (Some (VStr "thirty")))
    = Returned "age: illegal <string> value, expected <number>"
  ∧ checking (anObject (Some schema) (Some (FactoryRef 0)))
             (person (Some (VNum 123)) (Some (VStr "thirty")))
    = Returned "name: illegal <number> value, expected <string>".
Proof. repeat split; by vm_compute. Qed.

Example test_anObject_key_and_value :
  checking (anObject (Some (Key (FactoryRef 1))) (Some (FactoryRef 0)))
           (VObj true [("a", VNum 1); ("b", VNum 2)]) = Returned ""
  ∧ checking (anObject (Some (Key (FactoryRef 1))) (Some (FactoryRef 0)))
             (VObj true [("a", VStr "one")])
    = Returned "a: illegal <string> value, expected <number>".
Proof. repeat split; by vm_compute. Qed.

Example test_all :
  checking (all []) (VNum 123) = Returned ""
  ∧ checking (all [FactoryRef 0]) (VStr "hello")
    = Returned "illegal <string> value, expected <number>"
  ∧ checking (all [FactoryRef 0; FactoryRef 1]) (VNum 123)
    = Returned "illegal <number> value, expected <string>"
  ∧ checking (all [FactoryRef 0; FactoryRef 1; FactoryRef 4]) (VBool true)
    = Returned "illegal <boolean> value, expected <number>".
Proof. repeat split; by vm_compute. Qed.

Example test_any :
  checking (any []) (VNum 123) = Returned "unexpected <number> value"
  ∧ checking (any [("number", FactoryRef 0)]) (VNum 123) = Returned ""
  ∧ checking (any [("number", FactoryRef 0)]) (VStr "hello")
    = Returned "unexpected <string> value, expected <number>"
  ∧ checking (any [("number", FactoryRef 0); ("string", FactoryRef 1)]) VNull
    = Returned "unexpected <null> value, expected <number> or <string>"
  ∧ checking (any [("aNull", FactoryRef 4); ("aNumber", FactoryRef 0);
                   ("anArray", FactoryRef 2)]) (VBool true)
    = Returned "unexpected <boolean> value, expected <null>, <number> or <Array>".
Proof. repeat split; by vm_compute. Qed.

Example test_recursive_factory :
  checking (Resolve (FactoryRef aTree) Ret) (VNum 42) = Returned ""
  ∧ checking (Resolve (FactoryRef aTree) Ret)
             (VArr [VNum 1; VArr [VNum 2; VArr [VNum 3]]]) = Returned ""
  ∧ checking (Resolve (FactoryRef aTree) Ret) (VArr [VNum 1; VStr "bad"])
    = Returned "unexpected <array> value, expected <number> or <list>".
Proof. repeat split; by vm_compute. Qed.

(** A guard declared without parameters cannot be passed as a source. *)
Example test_guard_without_parameters :
  checking (unknown ← anUnknown; anArray (Some (GuardRef unknown))) (VArr [])
  = NotAGuard
  ∧ checking (anArray (Some (FactoryRef 6))) (VArr [VNull]) = Returned "".
Proof. repeat split; by vm_compute. Qed.

Example test_as_memoizes_and_freezes :
  let input := Object ObjectPrototype true
                 {[ KStr "name" := Descriptor (JStr "Alice") true true true ]} in
  let cast := Assertion (FactoryRef 1) 1 in
  ∃ frozen,
    as_cast accept cast (JObj 0) [input] = (Returned (JObj 0), [frozen])
    ∧ as_cast accept cast (JObj 0) [frozen] = (Returned (JObj 0), [frozen])
    ∧ isFrozen frozen
    ∧ as_cast accept cast (JStr "hello") [] = (Returned (JStr "hello"), [])
    ∧ as_cast (λ _ _ _, Some "illegal <number> value, expected <string>")
              cast (JNum 123) []
      = (Thrown "illegal <number> value, expected <string>", []).
Proof.
  exists (branded (FactoryRef 1) ObjectPrototype
            {[ KStr "name" := Descriptor (JStr "Alice") true true true ]}).
  split; [by vm_compute|]. split; [by vm_compute|].
  split; [apply freeze_isFrozen|]. by split.
Qed.

(** * Further properties of the code *)

(** ** More fuel never changes a result *)

Lemma call_fuel_mono n m σ guard v result :
  (n ≤ m)%nat → call n σ guard v = Some result → call m σ guard v = Some result.
Proof.
  revert m guard v result.
  induction n as [|n IH]; intros m guard v result Hle Hcall; [done|].
  destruct m as [|m]; [lia|].
  cbn [call] in *.
  destruct (heap σ !! guard) as [[key|parameters body]|]; [| |done].
  - unfold thunk in *.
    destruct (cache σ !! key) as [g|]; [|done].
    destruct (decide (g ≠ guard)); [|done].
    apply IH; [lia|done].
  - eapply eval_mono; [|done].
    intros g x r Hr. apply IH; [lia|done].
Qed.

Lemma call_fuel_uniform {A} (f : A → value) σ guard (items : list A) :
  Forall (λ x, ∃ n, call n σ guard (f x) = Some "") items →
  ∃ n, Forall (λ x, call n σ guard (f x) = Some "") items.
Proof.
  induction 1 as [|x items [n Hx] _ [m IH]]; [exists 0; constructor|].
  exists (n `max` m). constructor.
  - eapply call_fuel_mono; [|done]. lia.
  - eapply Forall_impl; [done|].
    intros y Hy. simpl in Hy. eapply call_fuel_mono; [|exact Hy]. lia.
Qed.

(** ** The guards on the type of the value *)

(** X1. A guard made by [aNull], [aBoolean], [aNumber], [aString] or
    [aFunction] accepts a value exactly when [type] gives it the expected
    type, and otherwise reports [illegal <type> value, expected <expected>];
    so no value is accepted by two different ones. *)
Theorem primitive_guards_accept_one_type p σ guard n v :
  heap σ !! guard = Some (Lambda 1 (primitive_guard p)) →
  call (S n) σ guard v
  = Some (if decide (type v = primitive_type p) then ""
          else "illegal <" +:+ type v +:+ "> value, expected <"
               +:+ primitive_type p +:+ ">")
  ∧ (call (S n) σ guard v = Some "" ↔ type v = primitive_type p)
  ∧ ∀ q other m,
      heap σ !! other = Some (Lambda 1 (primitive_guard q)) →
      call (S n) σ guard v = Some "" → call (S m) σ other v = Some "" → p = q.
Proof.
  intros Hguard.
  assert (∀ q other m,
            heap σ !! other = Some (Lambda 1 (primitive_guard q)) →
            call (S m) σ other v
            = Some (if decide (type v = primitive_type q) then ""
                    else illegal v (primitive_type q))) as Hcall.
  { intros q other m Hother.
    rewrite (call_lambda _ _ _ _ _ _ Hother).
    by destruct q, v as [| | | | | |items|plain props]. }
  assert (∀ q other m,
            heap σ !! other = Some (Lambda 1 (primitive_guard q)) →
            call (S m) σ other v = Some "" ↔ type v = primitive_type q) as Hiff.
  { intros q other m Hother. rewrite (Hcall _ _ _ Hother).
    destruct (decide (type v = primitive_type q)) as [|Hne]; [done|].
    split; [|done]. intros [=]. }
  split; [by apply Hcall|]. split; [by apply Hiff|].
  intros q other m Hother Hp Hq.
  apply (Hiff _ _ _ Hguard) in Hp. apply (Hiff _ _ _ Hother) in Hq.
  rewrite Hp in Hq. by destruct p, q.
Qed.

Lemma primitive_guards_accept_one_type_witness :
  heap (exec sample 1 (primitive_factory PNumber) initial).2 !! 0
  = Some (Lambda 1 (primitive_guard PNumber))
  ∧ call 1 (exec sample 1 (primitive_factory PNumber) initial).2 0 (VStr "x")
    = Some "illegal <string> value, expected <number>".
Proof.
  pose proof (primitive_guards_accept_one_type PNumber
                (exec sample 1 (primitive_factory PNumber) initial).2
                0 0 (VStr "x") eq_refl) as (Hcall & _).
  split; [reflexivity|exact Hcall].
Defined.

(** ** Objects *)

Lemma labelled_nonempty (key result : string) : key +:+ ": " +:+ result ≠ "".
Proof. by destruct key. Qed.

(** X2. [anObject()] accepts exactly the plain objects.  Whatever its
    arguments, the guard of [anObject] reports
    [illegal <type> value, expected <object>] on a value that is not a plain
    object, an object with another prototype included, and applies no guard
    to it. *)
Theorem object_guards_reject_what_is_not_a_plain_object σ guard body n v :
  body = object_guard
  ∨ (∃ keyGuard valueGuard, body = entry_guard keyGuard valueGuard)
  ∨ (∃ guards keys extra, body = schema_guard guards keys extra) →
  heap σ !! guard = Some (Lambda 1 body) →
  (isObject v = false →
   call (S n) σ guard v
   = Some ("illegal <" +:+ type v +:+ "> value, expected <object>")
   ∧ applied (call n σ) (body v) = [])
  ∧ (body = object_guard →
     (call (S n) σ guard v = Some "" ↔ isObject v = true)
     ∧ applied (call n σ) (body v) = []).
Proof.
  intros Hbody Hguard. rewrite (call_lambda _ _ _ _ _ _ Hguard). split.
  - intros Hv.
    destruct Hbody as [->|[(keyGuard & valueGuard & ->)|(guards & keys & extra & ->)]];
      by destruct v as [| | | | | |items|[] props].
  - intros ->. split; [|done]. unfold object_guard.
    destruct (isObject v); [done|]. split; [|done]. intros [=].
Qed.

Lemma object_guards_reject_what_is_not_a_plain_object_witness :
  heap (exec sample 1 (anObject None None) initial).2 !! 0
  = Some (Lambda 1 object_guard)
  ∧ call 1 (exec sample 1 (anObject None None) initial).2 0 (VObj false [])
    = Some "illegal <object> value, expected <object>".
Proof.
  pose proof (object_guards_reject_what_is_not_a_plain_object
                (exec sample 1 (anObject None None) initial).2 0 object_guard
                0 (VObj false []) (or_introl eq_refl) eq_refl) as [Hreject _].
  split; [reflexivity|]. by apply Hreject.
Defined.

Section entry_loop.

Context (invoke : gref → value → option string) (keyGuard valueGuard : gref).
Context (v : list (string * value)).

Lemma entry_loop_pass keys :
  Forall (λ key, invoke keyGuard (VStr key) = Some ""
                 ∧ invoke valueGuard (get v key) = Some "") keys →
  eval invoke (entry_loop keyGuard valueGuard v keys) = Some ""
  ∧ applied invoke (entry_loop keyGuard valueGuard v keys)
    = flat_map (λ key, [(keyGuard, VStr key); (valueGuard, get v key)]) keys.
Proof.
  induction 1 as [|key keys [Hkey Hvalue] _ [IHeval IHapplied]]; [done|].
  simpl. rewrite Hkey. simpl. rewrite Hvalue. simpl.
  by rewrite IHeval, IHapplied.
Qed.

Lemma entry_loop_key_fail before key after result :
  Forall (λ key, invoke keyGuard (VStr key) = Some ""
                 ∧ invoke valueGuard (get v key) = Some "") before →
  invoke keyGuard (VStr key) = Some result → result ≠ "" →
  eval invoke (entry_loop keyGuard valueGuard v (before ++ key :: after))
  = Some (key +:+ ": " +:+ result)
  ∧ applied invoke (entry_loop keyGuard valueGuard v (before ++ key :: after))
    = flat_map (λ key, [(keyGuard, VStr key); (valueGuard, get v key)]) before
      ++ [(keyGuard, VStr key)].
Proof.
  intros Hbefore Hkey Hne.
  induction Hbefore as [|k before [Hk Hvalue] _ [IHeval IHapplied]].
  - simpl. rewrite Hkey. by destruct (decide (result = "")).
  - simpl. rewrite Hk. simpl. rewrite Hvalue. simpl.
    by rewrite IHeval, IHapplied.
Qed.

Lemma entry_loop_value_fail before key after result :
  Forall (λ key, invoke keyGuard (VStr key) = Some ""
                 ∧ invoke valueGuard (get v key) = Some "") before →
  invoke keyGuard (VStr key) = Some "" →
  invoke valueGuard (get v key) = Some result → result ≠ "" →
  eval invoke (entry_loop keyGuard valueGuard v (before ++ key :: after))
  = Some (key +:+ ": " +:+ result)
  ∧ applied invoke (entry_loop keyGuard valueGuard v (before ++ key :: after))
    = flat_map (λ key, [(keyGuard, VStr key); (valueGuard, get v key)])
        (before ++ [key]).
Proof.
  intros Hbefore Hkey Hvalue Hne.
  induction Hbefore as [|k before [Hk Hv] _ [IHeval IHapplied]].
  - simpl. rewrite Hkey. simpl. rewrite Hvalue.
    by destruct (decide (result = "")).
  - simpl. rewrite Hk. simpl. rewrite Hv. simpl.
    by rewrite IHeval, IHapplied.
Qed.

Lemma entry_loop_accepts keys :
  eval invoke (entry_loop keyGuard valueGuard v keys) = Some "" →
  Forall (λ key, invoke keyGuard (VStr key) = Some ""
                 ∧ invoke valueGuard (get v key) = Some "") keys.
Proof.
  induction keys as [|key keys IH]; [by constructor|].
  simpl.
  destruct (invoke keyGuard (VStr key)) as [keyError|] eqn:Hkey; [|done].
  destruct (decide (keyError = "")) as [->|];
    [|intros [=Hempty]; by apply labelled_nonempty in Hempty].
  simpl.
  destruct (invoke valueGuard (get v key)) as [valError|] eqn:Hvalue; [|done].
  destruct (decide (valError = "")) as [->|];
    [|intros [=Hempty]; by apply labelled_nonempty in Hempty].
  intros Hrest. constructor; [done|by apply IH].
Qed.

End entry_loop.

(** X3. [anObject(asKey, aValue)] resolves the key source, then the value
    source.  Its guard goes through the keys of a plain object in order,
    applying the key guard to the key and then the value guard to the value;
    it stops at the first failure with [<key>: <diagnostic>] and accepts
    exactly when every key and every value passes. *)
Theorem entry_checks_each_key_then_its_value
    factories fuel asKey aValue σ keyGuard σ1 valueGuard σ2 :
  exec factories fuel (Resolve asKey Ret) σ = (Returned keyGuard, σ1) →
  exec factories fuel (Resolve aValue Ret) σ1 = (Returned valueGuard, σ2) →
  exec factories fuel (anObject (Some (Key asKey)) (Some aValue)) σ
    = (Returned (length (heap σ2)),
       allocate (Lambda 1 (entry_guard keyGuard valueGuard)) σ2)
  ∧ ∀ σ' object n props,
      heap σ' !! object = Some (Lambda 1 (entry_guard keyGuard valueGuard)) →
      (∀ before key after result,
          map fst props = before ++ key :: after →
          Forall (λ k, call n σ' keyGuard (VStr k) = Some ""
                       ∧ call n σ' valueGuard (get props k) = Some "") before →
          call n σ' keyGuard (VStr key) = Some result → result ≠ "" →
          call (S n) σ' object (VObj true props) = Some (key +:+ ": " +:+ result)
          ∧ applied (call n σ') (entry_guard keyGuard valueGuard (VObj true props))
            = flat_map (λ k, [(keyGuard, VStr k); (valueGuard, get props k)])
                before
              ++ [(keyGuard, VStr key)])
      ∧ (∀ before key after result,
            map fst props = before ++ key :: after →
            Forall (λ k, call n σ' keyGuard (VStr k) = Some ""
                         ∧ call n σ' valueGuard (get props k) = Some "") before →
            call n σ' keyGuard (VStr key) = Some "" →
            call n σ' valueGuard (get props key) = Some result → result ≠ "" →
            call (S n) σ' object (VObj true props)
            = Some (key +:+ ": " +:+ result)
            ∧ applied (call n σ')
                (entry_guard keyGuard valueGuard (VObj true props))
              = flat_map (λ k, [(keyGuard, VStr k); (valueGuard, get props k)])
                  (before ++ [key]))
      ∧ (call (S n) σ' object (VObj true props) = Some ""
         ↔ Forall (λ k, call n σ' keyGuard (VStr k) = Some ""
                        ∧ call n σ' valueGuard (get props k) = Some "")
             (map fst props)).
Proof.
  intros Hkey Hvalue. split.
  - cbn [anObject]. unfold entry.
    change (exec factories fuel
              (Resolve asKey (λ keyGuard,
                 Resolve aValue (λ valueGuard,
                   Closure 1 (entry_guard keyGuard valueGuard) Ret))) σ = 
            (Returned (length (heap σ2)),
             allocate (Lambda 1 (entry_guard keyGuard valueGuard)) σ2)).
    rewrite (exec_resolve_then _ _ _ _ _ _ _ Hkey).
    by rewrite (exec_resolve_then _ _ _ _ _ _ _ Hvalue).
  - intros σ' object n props Hobject.
    rewrite (call_lambda _ _ _ _ _ _ Hobject). cbn [entry_guard].
    split; [|split].
    + intros before key after result -> Hbefore Hfail Hne.
      by apply entry_loop_key_fail.
    + intros before key after result -> Hbefore Hpass Hfail Hne.
      by apply entry_loop_value_fail.
    + split; [apply entry_loop_accepts|]. intros Hall.
      by apply entry_loop_pass.
Qed.

Lemma entry_checks_each_key_then_its_value_witness :
  exec sample 3 (anObject (Some (Key (FactoryRef 1))) (Some (FactoryRef 0)))
    initial
  = (Returned 4,
     allocate (Lambda 1 (entry_guard 1 3))
       (exec sample 3 (Resolve (FactoryRef 0) Ret)
          (exec sample 3 (Resolve (FactoryRef 1) Ret) initial).2).2)
  ∧ call 2
      (exec sample 3 (anObject (Some (Key (FactoryRef 1))) (Some (FactoryRef 0)))
         initial).2 4
      (VObj true [("x", VNum 1); ("y", VStr "one")])
    = Some "y: illegal <string> value, expected <number>".
Proof.
  pose proof (entry_checks_each_key_then_its_value sample 3 (FactoryRef 1)
                (FactoryRef 0) initial 1 _ 3 _ eq_refl eq_refl)
    as [Hbuild Hguard].
  split; [exact Hbuild|].
  destruct (Hguard
              (exec sample 3
                 (anObject (Some (Key (FactoryRef 1))) (Some (FactoryRef 0)))
                 initial).2
              4 1 [("x", VNum 1); ("y", VStr "one")] eq_refl)
    as (_ & Hvalue & _).
  apply (Hvalue ["x"] "y" [] "illegal <string> value, expected <number>");
    [reflexivity|by repeat constructor|reflexivity|reflexivity|discriminate].
Defined.

(** X4. [anObject] given a single guarding makes the guard of the empty
    closed schema, without resolving the guarding: it accepts the empty
    plain object and reports the first key of any other plain object as an
    unexpected property. *)
Theorem anObject_with_one_guarding_is_the_empty_closed_schema
    factories fuel asKey σ :
  exec factories fuel (anObject (Some (Key asKey)) None) σ
    = (Returned (length (heap σ)),
       allocate (Lambda 1 (schema_guard [] ∅ None)) σ)
  ∧ ∀ σ' object n,
      heap σ' !! object = Some (Lambda 1 (schema_guard [] ∅ None)) →
      call (S n) σ' object (VObj true []) = Some ""
      ∧ ∀ key x rest,
          call (S n) σ' object (VObj true ((key, x) :: rest))
          = Some (key +:+ ": unexpected property").
Proof.
  split; [done|].
  intros σ' object n Hobject. split.
  - by rewrite (call_lambda _ _ _ _ _ _ Hobject).
  - intros key x rest. rewrite (call_lambda _ _ _ _ _ _ Hobject).
    cbn [schema_guard schema_loop map fst schema_rest].
    destruct (decide (key ∈ (∅ : gset string))) as [Hin|]; [|done].
    by apply not_elem_of_empty in Hin.
Qed.

Section schema_accepts.

Context (invoke : gref → value → option string) (v : list (string * value)).

Lemma schema_loop_accepts guards next :
  eval invoke (schema_loop guards v next) = Some "" →
  Forall (λ made : string * nat, invoke made.2 (get v made.1) = Some "") guards
  ∧ eval invoke next = Some "".
Proof.
  induction guards as [|[key guard] guards IH]; simpl; [done|].
  destruct (invoke guard (get v key)) as [result|] eqn:Hguard; [|done].
  destruct (decide (result = "")) as [->|];
    [|intros [=Hempty]; by apply labelled_nonempty in Hempty].
  intros Hrest. destruct (IH Hrest). split; [by constructor|done].
Qed.

Lemma schema_rest_accepts (keys : gset string) extra own_keys :
  eval invoke (schema_rest keys extra v own_keys) = Some "" →
  Forall (λ k, k ∈ keys
               ∨ ∃ e, extra = Some e ∧ invoke e (get v k) = Some "") own_keys.
Proof.
  induction own_keys as [|key rest IH]; simpl; [done|].
  destruct (decide (key ∈ keys)) as [Hin|Hout].
  { intros Hrest. constructor; [by left|by apply IH]. }
  destruct extra as [e|]; simpl.
  - destruct (invoke e (get v key)) as [result|] eqn:Hextra; [|done].
    destruct (decide (result = "")) as [->|];
      [|intros [=Hempty]; by apply labelled_nonempty in Hempty].
    intros Hrest. constructor; [right; by exists e|by apply IH].
  - intros [=Hempty]. by destruct key.
Qed.

End schema_accepts.

(** X5. The guard of a schema accepts a plain object exactly when every
    declared entry passes on the value found under its key and every own
    key of the object is declared or, for an open schema, has a value the
    rest guard accepts. *)
Theorem schema_accepts_exactly_what_passes
    σ object guards (keys : gset string) extra n props :
  heap σ !! object = Some (Lambda 1 (schema_guard guards keys extra)) →
  call (S n) σ object (VObj true props) = Some ""
  ↔ Forall (λ made : string * nat,
              call n σ made.2 (get props made.1) = Some "") guards
    ∧ Forall (λ k, k ∈ keys
                   ∨ ∃ other, extra = Some other
                              ∧ call n σ other (get props k) = Some "")
        (map fst props).
Proof.
  intros Hobject. rewrite (call_lambda _ _ _ _ _ _ Hobject).
  cbn [schema_guard]. split.
  - intros Haccepts.
    destruct (schema_loop_accepts _ _ _ _ Haccepts) as [Hdeclared Hrest].
    split; [done|]. by eapply schema_rest_accepts.
  - intros [Hdeclared Hrest].
    destruct (schema_loop_pass (call n σ) props guards
                (schema_rest keys extra props (map fst props)) Hdeclared)
      as [-> _].
    by apply schema_rest_pass.
Qed.

Lemma schema_accepts_exactly_what_passes_witness :
  heap (exec sample 3 (anObject (Some (Schema circle)) None) initial).2 !! 3
  = Some (Lambda 1 (schema_guard [("kind", 0); ("radius", 2)]
                      (list_to_set (map fst circle)) None))
  ∧ ¬ call 2 (exec sample 3 (anObject (Some (Schema circle)) None) initial).2 3
        (VObj true [("kind", VStr "circle"); ("radius", VNum 1); ("x", VNull)])
      = Some "".
Proof.
  pose proof (schema_accepts_exactly_what_passes
                (exec sample 3 (anObject (Some (Schema circle)) None) initial).2
                3 [("kind", 0); ("radius", 2)] (list_to_set (map fst circle))
                None 1
                [("kind", VStr "circle"); ("radius", VNum 1); ("x", VNull)]
                eq_refl) as [Hrequires _].
  split; [reflexivity|].
  intros Haccepts. destruct (Hrequires Haccepts) as [_ Hkeys].
  apply Forall_cons in Hkeys as [_ Hkeys].
  apply Forall_cons in Hkeys as [_ Hkeys].
  apply Forall_cons in Hkeys as [[Hx|(other & Hother & _)] _]; [|done].
  apply elem_of_list_to_set in Hx.
  apply elem_of_cons in Hx as [Hx|Hx]; [done|].
  apply elem_of_cons in Hx as [Hx|Hx]; [done|].
  by apply elem_of_nil in Hx.
Defined.

(** ** Conjunctions of conjunctions *)




(** ** The resolver over whole runs *)

(** X7. Once [resolve] has run a factory to its end, the deferred guard made
    for it stays in place and, in every later state, hands each value to the
    guard the factory returned; when the factory returned the deferred guard
    itself, that guard accepts every value. *)
Theorem deferred_guard_forwards_to_the_finished_guard
    factories fuel f σ guard σ1 :
  cache σ !! f = None →
  exec factories fuel (Resolve (FactoryRef f) Ret) σ = (Returned guard, σ1) →
  ∀ fuel' A (p : prog A) o σ2,
    exec factories fuel' p σ1 = (o, σ2) →
    heap σ2 !! length (heap σ) = Some (Thunk f)
    ∧ cache σ2 !! f = Some guard
    ∧ ∀ n v,
        call (S n) σ2 (length (heap σ)) v
        = if decide (guard = length (heap σ)) then Some ""
          else call n σ2 guard v.
Proof.
  intros Hfresh Hresolve fuel' A p o σ2 Hrun.
  pose proof (resolve_returned_cached _ _ _ _ _ _ Hresolve) as Hcached.
  pose proof (exec_evolves _ _ _ _ _ _ Hrun) as Hlater.
  assert (Hthunk : heap σ1 !! length (heap σ) = Some (Thunk f)).
  { rewrite exec_resolve_factory, materialize_fresh in Hresolve by done.
    destruct (construct factories fuel f (pending f σ)) as [[g|e| |] σb] eqn:Hbody;
      try done.
    injection Hresolve as _ <-.
    apply construct_evolves in Hbody.
    by destruct (pending_evolves _ _ _ Hfresh Hbody) as (_ & _ & Hthunk & _). }
  assert (Hthunk2 : heap σ2 !! length (heap σ) = Some (Thunk f))
    by (eapply prefix_lookup_Some; [done|apply Hlater]).
  assert (Hcached2 : cache σ2 !! f = Some guard) by by apply Hlater.
  split; [done|]. split; [done|].
  intros n v. by rewrite (call_thunk _ _ _ _ _ Hthunk2), Hcached2.
Qed.

Lemma deferred_guard_forwards_to_the_finished_guard_witness :
  cache initial !! aTree = None
  ∧ call 4 (exec sample 3 (Resolve (FactoryRef aTree) Ret) initial).2 0
      (VNum 1)
    = call 3 (exec sample 3 (Resolve (FactoryRef aTree) Ret) initial).2 4
        (VNum 1).
Proof.
  pose proof (deferred_guard_forwards_to_the_finished_guard sample 3 aTree
                initial 4 _ eq_refl eq_refl 0 _ (Ret tt) _ _ eq_refl)
    as (_ & _ & Hforward).
  split; [reflexivity|]. exact (Hforward 3 (VNum 1)).
Defined.



(** X9. In every run that starts with an empty cache, each deferred guard
    finds an entry for its factory when it is applied: it hands the value to
    the guard cached there, or accepts it when that guard is itself. *)
Theorem deferred_guard_always_finds_an_entry
    factories fuel {A} (p : prog A) o σ t key :
  exec factories fuel p initial = (o, σ) →
  heap σ !! t = Some (Thunk key) →
  ∃ guard,
    cache σ !! key = Some guard
    ∧ ∀ n v, call (S n) σ t v
             = if decide (guard = t) then Some "" else call n σ guard v.
Proof.
  intros Hrun Hthunk.
  destruct (exec_thunks_cached _ _ _ _ _ _ Hrun thunks_cached_initial
              _ _ Hthunk) as [guard Hguard].
  exists guard. split; [done|].
  intros n v. by rewrite (call_thunk _ _ _ _ _ Hthunk), Hguard.
Qed.

Lemma deferred_guard_always_finds_an_entry_witness :
  ∃ guard,
    cache (exec sample 3 (Resolve (FactoryRef 7) Ret) initial).2 !! 7
    = Some guard
    ∧ ∀ n v, call (S n) (exec sample 3 (Resolve (FactoryRef 7) Ret) initial).2
               0 v
             = if decide (guard = 0) then Some ""
               else call n (exec sample 3 (Resolve (FactoryRef 7) Ret)
                              initial).2 guard v.
Proof.
  exact (deferred_guard_always_finds_an_entry sample 3
           (Resolve (FactoryRef 7) Ret) _ _ 0 7 (surjective_pairing _) eq_refl).
Defined.

(** ** A recursive factory *)

Lemma value_nested_ind (P : value → Prop) :
  P VUndefined → P VNull → (∀ b, P (VBool b)) → (∀ n, P (VNum n)) →
  (∀ s, P (VStr s)) → (∀ text, P (VFun text)) →
  (∀ items, Forall P items → P (VArr items)) →
  (∀ plain props, P (VObj plain props)) →
  ∀ v, P v.
Proof.
  intros Hundefined Hnull Hbool Hnum Hstr Hfun Harr Hobj.
  fix IH 1. intros [| |b|n|s|text|items|plain props].
  - apply Hundefined.
  - apply Hnull.
  - apply Hbool.
  - apply Hnum.
  - apply Hstr.
  - apply Hfun.
  - apply Harr. induction items as [|x items IHitems]; constructor.
    + apply IH.
    + apply IHitems.
  - apply Hobj.
Qed.

Lemma forallb_all {A} (f : A → bool) (l : list A) :
  forallb f l = true → Forall (λ y, f y = true) l.
Proof.
  induction l as [|y l IH]; [constructor|]. simpl.
  destruct (f y) eqn:Hy; [|done]. intros Hrest. constructor; [done|by apply IH].
Qed.

Lemma forallb_first_failure {A} (f : A → bool) (l : list A) :
  forallb f l = false →
  ∃ passed x rest,
    l = passed ++ x :: rest ∧ Forall (λ y, f y = true) passed ∧ f x = false.
Proof.
  induction l as [|y l IH]; [done|]. simpl.
  destruct (f y) eqn:Hy.
  - intros Hrest. destruct (IH Hrest) as (passed & x & rest & -> & Hpassed & Hx).
    exists (y :: passed), x, rest. split; [done|]. split; [by constructor|done].
  - intros _. exists [], y, l. split; [done|]. split; [constructor|done].
Qed.

Lemma any_of_two σ guard first second a b n v r1 r2 :
  heap σ !! guard = Some (Lambda 1 (any_guard [(a, first); (b, second)])) →
  call n σ first v = Some r1 →
  call n σ second v = Some r2 →
  call (S n) σ guard v
  = Some (if decide (r1 = "") then ""
          else if decide (r2 = "") then ""
          else error (expected (names [(a, first); (b, second)])) v).
Proof.
  intros Hguard Hfirst Hsecond. rewrite (call_lambda _ _ _ _ _ _ Hguard).
  unfold any_guard. cbn [eval]. rewrite Hfirst.
  destruct (decide (r1 = "")); [done|]. cbn [eval]. rewrite Hsecond.
  by destruct (decide (r2 = "")).
Qed.

(** X10. A factory that returns [any] of a number guard and of an array
    guard over the factory itself yields a guard for trees of any depth: on
    every value it returns, given enough nested applications, the empty
    diagnostic when the value is a number or an array of trees, and the
    diagnostic of [any] otherwise. *)
Theorem recursive_factory_accepts_exactly_the_trees
    σ f deferred number list guard a b :
  heap σ !! deferred = Some (Thunk f) →
  cache σ !! f = Some guard →
  guard ≠ deferred →
  heap σ !! number = Some (Lambda 1 aNumber_guard) →
  heap σ !! list = Some (Lambda 1 (anArray_guard (Some deferred))) →
  heap σ !! guard = Some (Lambda 1 (any_guard [(a, number); (b, list)])) →
  ∀ v, ∃ n,
    call n σ guard v
    = Some (if tree v then ""
            else error (expected (names [(a, number); (b, list)])) v).
Proof.
  intros Hdeferred Hcached Hne Hnumber Hlist Hguard.
  assert (Hother : ∀ v, (∀ items, v ≠ VArr items) →
            call 2 σ guard v
            = Some (if tree v then ""
                    else error (expected (names [(a, number); (b, list)])) v)).
  { intros v Hv.
    rewrite (any_of_two _ _ _ _ _ _ 1 v
               (if tree v then "" else illegal v "number") (illegal v "array")
               Hguard).
    - destruct v; try done. by destruct (Hv items).
    - rewrite (call_lambda _ _ _ _ _ _ Hnumber).
      destruct v; try done. by destruct (Hv items).
    - rewrite (call_lambda _ _ _ _ _ _ Hlist).
      destruct v; try done. by destruct (Hv items). }
  assert (Hforward : ∀ n x r, call n σ guard x = Some r
                              → call (S n) σ deferred x = Some r).
  { intros n x r Hx. rewrite (call_thunk _ _ _ _ _ Hdeferred), Hcached.
    by destruct (decide (guard = deferred)). }
  induction v as [| |flag|z|s|text|items IH|plain props] using value_nested_ind;
    try (exists 2; by apply Hother).
  destruct (forallb tree items) eqn:Hitems.
  - assert (Hpass : Forall (λ x, ∃ n, call n σ guard ((λ y, y) x) = Some "") items).
    { pose proof (conj IH (forallb_all _ _ Hitems)) as Hboth.
      apply Forall_and in Hboth.
      eapply Forall_impl; [exact Hboth|].
      intros x [[n Hn] Hx]. exists n. by rewrite Hn, Hx. }
    apply call_fuel_uniform in Hpass as [n Hpass].
    exists (S (S (S n))). cbn [tree]. rewrite Hitems.
    rewrite (any_of_two _ _ _ _ _ _ (S (S n)) (VArr items)
               (illegal (VArr items) "number") "" Hguard); [done| |].
    + by rewrite (call_lambda _ _ _ _ _ _ Hnumber).
    + rewrite (call_lambda _ _ _ _ _ _ Hlist). cbn [anArray_guard].
      apply anArray_loop_pass.
      eapply Forall_impl; [exact Hpass|]. intros x. apply Hforward.
  - destruct (forallb_first_failure _ _ Hitems)
      as (passed & x & rest & -> & Hpassed & Hx).
    apply Forall_app in IH as [IHpassed IHx].
    apply Forall_cons in IHx as [[m Hfail] _]. rewrite Hx in Hfail.
    assert (Hpass : Forall (λ y, ∃ n, call n σ guard ((λ y, y) y) = Some "")
                      passed).
    { pose proof (conj IHpassed Hpassed) as Hboth.
      apply Forall_and in Hboth.
      eapply Forall_impl; [exact Hboth|].
      intros y [[n Hn] Hy]. exists n. by rewrite Hn, Hy. }
    apply call_fuel_uniform in Hpass as [n Hpass].
    exists (S (S (S (n `max` m)))). cbn [tree]. rewrite Hitems.
    rewrite (any_of_two _ _ _ _ _ _ (S (S (n `max` m))) (VArr (passed ++ x :: rest))
               (illegal (VArr (passed ++ x :: rest)) "number")
               ("[" +:+ pretty (0 + length passed) +:+ "]: "
                +:+ error (expected (names [(a, number); (b, list)])) x)
               Hguard); [done| |].
    + by rewrite (call_lambda _ _ _ _ _ _ Hnumber).
    + rewrite (call_lambda _ _ _ _ _ _ Hlist). cbn [anArray_guard].
      apply anArray_loop_fail; [| |done].
      * eapply Forall_impl; [exact Hpass|]. intros y Hy. apply Hforward.
        eapply call_fuel_mono; [|exact Hy]. lia.
      * apply Hforward. eapply call_fuel_mono; [|exact Hfail]. lia.
Qed.

Lemma recursive_factory_accepts_exactly_the_trees_witness :
  (∃ n, call n (exec sample 3 (Resolve (FactoryRef aTree) Ret) initial).2 4
          (VArr [VNum 1; VArr [VNum 2; VArr []]])
        = Some "")
  ∧ ∃ n, call n (exec sample 3 (Resolve (FactoryRef aTree) Ret) initial).2 4
           (VArr [VNum 1; VArr [VStr "two"]])
         = Some "unexpected <array> value, expected <number> or <list>".
Proof.
  pose proof (recursive_factory_accepts_exactly_the_trees
                (exec sample 3 (Resolve (FactoryRef aTree) Ret) initial).2
                aTree 0 3 1 4 "aNumber" "list"
                eq_refl eq_refl (λ H : 4 = 0, O_S 3 (eq_sym H))
                eq_refl eq_refl eq_refl) as Htrees.
  split.
  - exact (Htrees (VArr [VNum 1; VArr [VNum 2; VArr []]])).
  - exact (Htrees (VArr [VNum 1; VArr [VStr "two"]])).
Defined.

(** ** More on the validating cast *)

(** X11. When the value does not carry the mark of the guarding, [as]
    applies the guard: on a diagnostic it throws that diagnostic and leaves
    every object as it is; a value that is not an object and passes is
    returned as it is, with no object changed. *)
Theorem as_reports_the_diagnostic_and_changes_nothing apply a v h result :
  get_property h v Guarded ≠ JFun (guarding_of a) →
  apply (guard_of a) h v = Some result →
  (result ≠ "" → as_cast apply a v h = (Thrown result, h))
  ∧ (result = "" → (∀ l, v ≠ JObj l) → as_cast apply a v h = (Returned v, h)).
Proof.
  intros Hmark Hresult. unfold as_cast.
  rewrite (bool_decide_eq_false_2 _ Hmark), andb_false_r, Hresult.
  split.
  - intros Hne. by destruct (decide (result = "")).
  - intros -> Hv. destruct v; try done. by destruct (Hv l).
Qed.

Lemma as_reports_the_diagnostic_and_changes_nothing_witness :
  as_cast (λ _ _ _, Some "illegal <object> value, expected <string>")
    (Assertion (FactoryRef 1) 1) (JObj 0) [alice]
  = (Thrown "illegal <object> value, expected <string>", [alice]).
Proof.
  refine (proj1 (as_reports_the_diagnostic_and_changes_nothing
                   (λ _ _ _, Some "illegal <object> value, expected <string>")
                   (Assertion (FactoryRef 1) 1) (JObj 0) [alice] _ _ eq_refl) _);
    [by vm_compute|discriminate].
Defined.

(** X12. Whatever [as] returns or throws, the store keeps its objects: none
    disappears, and the only object that can differ afterwards is the one
    [as] was given, and only if it was extensible. *)
Theorem as_changes_at_most_the_object_it_is_given apply a v h out h' :
  as_cast apply a v h = (out, h') →
  (length h ≤ length h')%nat
  ∧ ∀ l o, h !! l = Some o →
           v ≠ JObj l ∨ is_extensible o = false →
           h' !! l = Some o.
Proof.
  unfold as_cast.
  destruct (_ && _); [by intros [= _ <-]|].
  destruct (apply (guard_of a) h v) as [result|]; [|by intros [= _ <-]].
  destruct (decide (result = "")); [|by intros [= _ <-]].
  destruct v as [| | | | | |l0]; try by intros [= _ <-].
  unfold brand. destruct (h !! l0) as [o0|] eqn:Hl0; [|by intros [= _ <-]].
  destruct (is_extensible o0) eqn:Hext.
  - destruct (define_own_property o0 Guarded (mark (guarding_of a)))
      as [marked|]; [|by intros [= _ <-]].
    intros [= _ <-]. split; [by rewrite length_insert|].
    intros l o Hl Hcase. destruct (decide (l = l0)) as [->|Hne].
    + rewrite Hl0 in Hl. injection Hl as <-.
      destruct Hcase as [Hv|Hfixed]; [done|congruence].
    + by rewrite list_lookup_insert_ne.
  - assert (Hkept : ∀ extra l o, h !! l = Some o → (h ++ extra) !! l = Some o).
    { intros extra l o Hl. by apply lookup_app_l_Some. }
    destruct (define_own_property (extensible o0) Guarded (mark (guarding_of a)))
      as [marked|]; intros [= _ <-].
    + split; [rewrite length_insert, length_app; lia|].
      intros l o Hl _. pose proof (lookup_lt_Some _ _ _ Hl) as Hlt.
      rewrite list_lookup_insert_ne by lia. by apply Hkept.
    + split; [rewrite length_app; lia|]. intros l o Hl _. by apply Hkept.
Qed.

Lemma as_changes_at_most_the_object_it_is_given_witness :
  (as_cast accept (Assertion (FactoryRef 6) 1) (JObj 1) [alice; alice]).2 !! 0
  = Some alice.
Proof.
  refine (proj2 (as_changes_at_most_the_object_it_is_given accept
                   (Assertion (FactoryRef 6) 1) (JObj 1) [alice; alice] _ _
                   (surjective_pairing _)) 0 alice eq_refl (or_intror eq_refl)).
Defined.

(** X13. In a store where every object that has a mark of its own is
    frozen, [as] on a value of the store keeps it so, keeps every object
    that has a mark as it is, and fails only with the diagnostic of the
    guard, leaving the store as it was. *)
Theorem as_keeps_marked_objects_frozen apply a v h out h' :
  marks_frozen h →
  (∀ l, v = JObj l → is_Some (h !! l)) →
  as_cast apply a v h = (out, h') →
  marks_frozen h'
  ∧ (∀ l o, h !! l = Some o → is_Some (properties o !! Guarded) →
            h' !! l = Some o)
  ∧ (∀ e, out = Thrown e →
          apply (guard_of a) h v = Some e ∧ e ≠ "" ∧ h' = h)
  ∧ out ≠ NotAGuard.
Proof.
  intros Hfrozen Hvalid. unfold as_cast.
  destruct (_ && _); [by intros [= <- <-]|].
  destruct (apply (guard_of a) h v) as [result|] eqn:Hresult;
    [|by intros [= <- <-]].
  destruct (decide (result = "")) as [->|Hne].
  2: { intros [= <- <-]. split; [done|]. split; [done|]. split; [|done].
       by intros e [= <-]. }
  destruct v as [| | | | | |l0]; try by intros [= <- <-].
  destruct (Hvalid l0 eq_refl) as [o0 Hl0].
  destruct (is_extensible o0) eqn:Hext.
  - assert (Hunmarked : properties o0 !! Guarded = None).
    { destruct (properties o0 !! Guarded) as [d|] eqn:Hd; [|done].
      destruct (Hfrozen l0 o0 Hl0 (mk_is_Some _ _ Hd)) as [Hno _]. congruence. }
    rewrite (brand_in_place _ _ _ _ Hl0 Hext Hunmarked).
    intros [= <- <-]. split; [|split; [|done]].
    + intros l o Hl Hmark. destruct (decide (l = l0)) as [->|Hother].
      * rewrite list_lookup_insert_eq in Hl by by eapply lookup_lt_Some.
        injection Hl as <-. apply freeze_isFrozen.
      * rewrite list_lookup_insert_ne in Hl by done. by eapply Hfrozen.
    + intros l o Hl [d Hmark]. destruct (decide (l = l0)) as [->|Hother].
      * congruence.
      * by rewrite list_lookup_insert_ne.
  - rewrite (brand_copy _ _ _ _ Hl0 Hext).
    intros [= <- <-]. split; [|split; [|done]].
    + intros l o Hl Hmark. apply lookup_app_Some in Hl as [Hl|[_ Hl]].
      * by eapply Hfrozen.
      * destruct (l - length h) as [|k]; [|by destruct k].
        injection Hl as <-. apply freeze_isFrozen.
    + intros l o Hl _. by apply lookup_app_l_Some.
Qed.

Lemma as_keeps_marked_objects_frozen_witness :
  marks_frozen [alice; base]
  ∧ marks_frozen
      (as_cast accept (Assertion (FactoryRef 1) 1) (JObj 1) [alice; base]).2.
Proof.
  assert (Hfrozen : marks_frozen [alice; base]).
  { intros [|[|l]] o [= <-] Hmark; [|apply freeze_isFrozen].
    by destruct Hmark as [d Hd]. }
  split; [exact Hfrozen|].
  refine (proj1 (as_keeps_marked_objects_frozen accept
                   (Assertion (FactoryRef 1) 1) (JObj 1) [alice; base] _ _
                   Hfrozen _ (surjective_pairing _))).
  intros l [= <-]. by eexists.
Defined.

Lemma brand_succeeds guarding h l o :
  marks_frozen h → h !! l = Some o →
  ∃ l' h', brand guarding h l = (Returned (JObj l'), h').
Proof.
  intros Hfrozen Hl. destruct (is_extensible o) eqn:Hext.
  - assert (Hunmarked : properties o !! Guarded = None).
    { destruct (properties o !! Guarded) as [d|] eqn:Hd; [|done].
      destruct (Hfrozen l o Hl (mk_is_Some _ _ Hd)) as [Hno _]. congruence. }
    eexists _, _. by apply brand_in_place.
  - eexists _, _. by apply brand_copy.
Qed.

(** X14. In a store where every object that has a mark of its own is
    frozen, and for a value that does not carry the mark of the guarding,
    [is] and [as] agree: [is] answers true exactly when [as] returns a
    value, and false exactly when [as] throws. *)
Theorem is_agrees_with_as apply a v h :
  marks_frozen h →
  (∀ l, v = JObj l → is_Some (h !! l)) →
  get_property h v Guarded ≠ JFun (guarding_of a) →
  (is_test apply a v h = Some true
   ↔ ∃ v' h', as_cast apply a v h = (Returned v', h'))
  ∧ (is_test apply a v h = Some false
     ↔ ∃ e, as_cast apply a v h = (Thrown e, h)).
Proof.
  intros Hfrozen Hvalid Hmark. unfold is_test, as_cast.
  rewrite (bool_decide_eq_false_2 _ Hmark), andb_false_r.
  destruct (apply (guard_of a) h v) as [result|]; simpl.
  2: { split; (split; [done|]); [by intros (? & ? & ?)|by intros (? & ?)]. }
  destruct (decide (result = "")) as [->|Hne].
  - assert (Hreturns : ∃ v' h',
              match v with
              | JObj l => brand (guarding_of a) h l
              | _ => (Returned v, h)
              end = (Returned v', h')).
    { destruct v as [| | | | | |l]; try by eexists _, _.
      destruct (Hvalid l eq_refl) as [o Hl].
      destruct (brand_succeeds (guarding_of a) _ _ _ Hfrozen Hl) as (l' & h' & ->).
      by eexists _, _. }
    rewrite bool_decide_eq_true_2 by done.
    split; [by split|]. split; [done|].
    destruct Hreturns as (v' & h' & ->). by intros (? & ?).
  - rewrite bool_decide_eq_false_2 by done.
    split; [split; [done|by intros (? & ? & ?)]|].
    split; [|done]. intros _. by eexists.
Qed.

Lemma is_agrees_with_as_witness :
  is_test accept (Assertion (FactoryRef 6) 1) (JObj 0) [alice] = Some true
  ∧ ∃ v' h', as_cast accept (Assertion (FactoryRef 6) 1) (JObj 0) [alice]
             = (Returned v', h').
Proof.
  split; [reflexivity|].
  refine (proj1 (proj1 (is_agrees_with_as accept (Assertion (FactoryRef 6) 1)
                          (JObj 0) [alice] _ _ _)) eq_refl).
  - intros [|l] o [= <-] [d Hd]. by vm_compute in Hd.
  - intros l [= <-]. by eexists.
  - by vm_compute.
Defined.

(** ** Labels *)



(** ** Recursion that makes no progress *)

(** X16. A guard that first hands its value to the deferred guard of the
    factory it is the result of never returns on that value: the deferred
    guard hands the value back to it, and no number of nested applications
    is enough. *)
Theorem unfounded_recursion_never_returns σ f deferred guard parameters body v k :
  heap σ !! deferred = Some (Thunk f) →
  cache σ !! f = Some guard →
  guard ≠ deferred →
  heap σ !! guard = Some (Lambda parameters body) →
  body v = Apply deferred v k →
  ∀ n, call n σ guard v = None ∧ call n σ deferred v = None.
Proof.
  intros Hdeferred Hcached Hne Hguard Hbody.
  induction n as [|n [IHguard IHdeferred]]; [done|]. split.
  - rewrite (call_lambda _ _ _ _ _ _ Hguard), Hbody. cbn [eval].
    by rewrite IHdeferred.
  - rewrite (call_thunk _ _ _ _ _ Hdeferred), Hcached.
    by destruct (decide (guard = deferred)).
Qed.

Lemma unfounded_recursion_never_returns_witness :
  call 1000 (exec unfounded 3 (Resolve (FactoryRef 0) Ret) initial).2 1
    (VNum 1) = None.
Proof.
  exact (proj1 (unfounded_recursion_never_returns
                  (exec unfounded 3 (Resolve (FactoryRef 0) Ret) initial).2
                  0 0 1 1 (all_guard [0]) (VNum 1) Report
                  eq_refl eq_refl (λ H : 1 = 0, O_S 0 (eq_sym H))
                  eq_refl eq_refl 1000)).
Defined.

(** ** Witnesses *)

Lemma any_guard_behaviour_witness :
  exec sample 3 (any [("aNumber", FactoryRef 0); ("aString", FactoryRef 1)])
    initial
  = (Returned 4,
     allocate (Lambda 1 (any_guard [("aNumber", 1); ("aString", 3)]))
       (exec sample 3
          (resolve_entries [("aNumber", FactoryRef 0); ("aString", FactoryRef 1)])
          initial).2)
  ∧ call 2
      (exec sample 3 (any [("aNumber", FactoryRef 0); ("aString", FactoryRef 1)])
         initial).2 4 VNull
    = Some "unexpected <null> value, expected <number> or <string>".
Proof.
  pose proof (any_guard_behaviour sample 3
                [("aNumber", FactoryRef 0); ("aString", FactoryRef 1)] initial
                [("aNumber", 1); ("aString", 3)] _ eq_refl) as [Hbuild Hguard].
  split; [exact Hbuild|].
  destruct (Hguard
              (exec sample 3
                 (any [("aNumber", FactoryRef 0); ("aString", FactoryRef 1)])
                 initial).2
              4 1 VNull eq_refl) as (_ & _ & Hfail).
  apply Hfail. repeat constructor.
  - exists "illegal <null> value, expected <number>". by split.
  - exists "illegal <null> value, expected <string>". by split.
Defined.

Lemma as_cast_twice_witness :
  ∃ first h' o',
    as_cast accept (Assertion (FactoryRef 6) 1) (JObj 0) [alice]
    = (Returned (JObj first), h')
    ∧ h' !! first = Some o'
    ∧ isFrozen o'
    ∧ (∀ apply', as_cast apply' (Assertion (FactoryRef 6) 1) (JObj first) h'
                 = (Returned (JObj first), h'))
    ∧ ∀ m h'', attempt m h' first = Some h'' → h'' = h'.
Proof.
  refine (as_cast_twice accept (Assertion (FactoryRef 6) 1) [alice] 0 alice
            eq_refl _ eq_refl (or_introl eq_refl)).
  by vm_compute.
Defined.
